(** * fsmonitor: a shallow embedding of the scan, diff and dispatch engine

    Sources embedded:
    - [notice.go]: [Event] bit flags and the [Notice] record.
    - [unnamed/part_002]: [pathScanner.Watch], the worker goroutine whose
      loop body walks the tree, diffs against [lastCheck] and reports.
      [unnamed/part_004] ([Monitor.scan]) carries the same loop body.
    - [monitor.go]: [New] (pattern compilation, watcher choice),
      [Monitor.Start] (the dispatch loop) and [Monitor.Stop].

    Go maps are stdpp [gmap]s; a nil map is [None].  Time stamps taken
    with [time.Now()] are not modelled (no claim reads them). *)

From Stdlib Require Import ZArith Lia.
From stdpp Require Import base gmap sets list strings.

Open Scope Z_scope.

(** ** notice.go *)

(** [type Event uint32] with [FileCreate Event = 0x01 << iota]. *)
Definition Event := N.
Definition FileCreate : Event := N.shiftl 1 0.
Definition FileUpdate : Event := N.shiftl 1 1.
Definition FileRemove : Event := N.shiftl 1 2.
Definition FileRename : Event := N.shiftl 1 3.

(** The part of [os.FileInfo] read by the scanner. *)
Record FileInfo := mkFileInfo {
  IsDir : bool;
  ModTime : Z;   (** nanoseconds; [After] is strict [>] *)
  Size : Z
}.

Definition error := string.

(** [fileSystemNotice]: path, event and fileinfo. *)
Record Notice := mkNotice {
  path : string;
  event : Event;
  fileinfo : FileInfo
}.

Definition Type_ (n : Notice) : Event := event n.
Definition Name (n : Notice) : string := path n.

(** [var eventName = map[Event]string{...}]. *)
Definition eventName : gmap N string :=
  {[FileCreate := "notice.FileCreate"; FileRemove := "notice.FileRemove";
    FileUpdate := "notice.FileUpdate"; FileRename := "notice.FileRename"]}.

(** [func (e Event) String() string]: [for ev, str := range strmap { if
    e&ev == ev { s = append(s, str) } }; return strings.Join(s, "|")].
    Go ranges over a map in an unspecified order; [order] is the sequence
    of [(ev, str)] entries that [range eventName] produces on this call. *)
Definition Event_String (order : list (Event * string)) (e : Event) : string :=
  String.concat "|"
    (map snd (List.filter (fun p => N.eqb (N.land e p.1) p.1) order)).

(** ** Regular expressions ([regexp.Regexp] values as the code holds them)

    [New] keeps [regexp.Regexp] values by value.  A compiled expression is
    represented by its match predicate ([FindStringIndex(s) != nil]); the
    zero value [regexp.Regexp{}] has no compiled program: calling
    [FindStringIndex] on it dereferences the nil program and panics,
    which is [None] below. *)
Inductive Regexp :=
| ZeroRegexp
| Compiled (find : string -> bool).

Definition FindStringIndex (re : Regexp) (s : string) : option bool :=
  match re with
  | ZeroRegexp => None
  | Compiled f => Some (f s)
  end.

(** ** unnamed/part_002: the body of one scan cycle *)

Abbreviation snapshot := (gmap string FileInfo).

(** [m[k]] on a possibly nil Go map. *)
Definition map_index (m : option snapshot) (k : string) : option FileInfo :=
  match m with
  | Some m => m !! k
  | None => None
  end.

(** [matched := false || len(s.pattern) == 0; for _, re := range s.pattern
    { if re.FindStringIndex(file) != nil { matched = true; break } }];
    [None] is a panic. *)
Fixpoint match_loop (pattern : list Regexp) (file : string) (matched : bool)
  : option bool :=
  match pattern with
  | [] => Some matched
  | re :: rest =>
      match FindStringIndex re file with
      | None => None
      | Some true => Some true
      | Some false => match_loop rest file matched
      end
  end.

Definition pattern_matched (pattern : list Regexp) (file : string) : option bool :=
  match_loop pattern file (orb false (Nat.eqb (length pattern) 0)).

(** One invocation of the [filepath.Walk] callback: [(file, info, err)].
    [filepath.Walk] hands the callback a nil [info] only when [Lstat]
    fails; the callback then panics on [info.IsDir()]. Such calls are
    added by [WalkArg] below. *)
Record WalkCall := mkWalkCall {
  wc_file : string;
  wc_info : FileInfo;
  wc_err : option error
}.

(** Local variables of the loop body: [visited], [created] and the
    notices sent on [changed] so far. *)
Record ScanState := mkScanState {
  visited : snapshot;
  created : Z;
  changed : list Notice
}.

Definition scan_init : ScanState := mkScanState ∅ 0 [].

Definition send (st : ScanState) (n : Notice) : ScanState :=
  mkScanState (visited st) (created st) (changed st ++ [n]).

(** The walk callback, lines 61-106: [None] is a panic; otherwise the new
    locals and the error the callback returns (always its [err]). *)
Definition walkFn (pattern : list Regexp) (lastCheck : option snapshot)
    (st : ScanState) (c : WalkCall) : option (ScanState * option error) :=
  let file := wc_file c in
  let info := wc_info c in
  let err := wc_err c in
  if IsDir info then Some (st, err) else
  match pattern_matched pattern file with
  | None => None
  | Some false => Some (st, err)
  | Some true =>
      let st1 :=
        match map_index lastCheck file with
        | Some oldinfo =>
            if ModTime info >? ModTime oldinfo then
              send st (mkNotice file FileUpdate info)
            else if negb (Size oldinfo =? Size info) then
              send st (mkNotice file FileUpdate info)
            else st
        | None =>
            match lastCheck with
            | Some _ =>
                let st2 := send st (mkNotice file FileCreate info) in
                mkScanState (visited st2) (created st2 + 1) (changed st2)
            | None => st
            end
        end in
      Some (mkScanState (<[file := info]> (visited st1)) (created st1)
              (changed st1), err)
  end.

(** [filepath.Walk]: the callback is invoked in traversal order and the
    walk stops at the first call returning a non-nil error, which it
    returns. *)
Fixpoint Walk (pattern : list Regexp) (lastCheck : option snapshot)
    (st : ScanState) (calls : list WalkCall) : option (ScanState * option error) :=
  match calls with
  | [] => Some (st, None)
  | c :: rest =>
      match walkFn pattern lastCheck st c with
      | None => None
      | Some (st', Some e) => Some (st', Some e)
      | Some (st', None) => Walk pattern lastCheck st' rest
      end
  end.

(** Lines 107-118: [for file, info := range s.lastCheck { if _, ok :=
    visited[file]; !ok { changed <- Remove } }], iterating in the order
    of [map_to_list]. *)
Definition removals (lastCheck : snapshot) (vis : snapshot) : list Notice :=
  omap (fun '(file, info) =>
          match vis !! file with
          | Some _ => None
          | None => Some (mkNotice file FileRemove info)
          end) (map_to_list lastCheck).

(** One iteration of [for changed := range ncc]: the notices sent on
    [changed] in order, the new [s.lastCheck] and the error reported on
    [errors]; [None] is a panic of the worker. *)
Definition scan_cycle (pattern : list Regexp) (lastCheck : option snapshot)
    (calls : list WalkCall) : option (list Notice * option snapshot * option error) :=
  match Walk pattern lastCheck scan_init calls with
  | None => None
  | Some (st, err) =>
      let rem :=
        match lastCheck with
        | Some lc =>
            if Z.of_nat (size lc) >? Z.of_nat (size (visited st)) - created st
            then removals lc (visited st) else []
        | None => []
        end in
      Some (changed st ++ rem, Some (visited st), err)
  end.

(** A callback invocation as [filepath.Walk] makes it: with the
    [os.FileInfo] of the path, or with a nil [info] and the [Lstat] error
    when the path cannot be read (a missing root, or an entry removed
    while the walk runs). *)
Inductive WalkArg :=
| WalkInfo (c : WalkCall)
| WalkNilInfo (file : string) (err : error).

(** The callback on any invocation: with a nil [info], the first line
    [info.IsDir()] calls a method on a nil interface and panics. *)
Definition walkFn_arg (pattern : list Regexp) (lastCheck : option snapshot)
    (st : ScanState) (a : WalkArg) : option (ScanState * option error) :=
  match a with
  | WalkInfo c => walkFn pattern lastCheck st c
  | WalkNilInfo _ _ => None
  end.

(** [filepath.Walk] over such invocations. *)
Fixpoint Walk_arg (pattern : list Regexp) (lastCheck : option snapshot)
    (st : ScanState) (args : list WalkArg) : option (ScanState * option error) :=
  match args with
  | [] => Some (st, None)
  | a :: rest =>
      match walkFn_arg pattern lastCheck st a with
      | None => None
      | Some (st', Some e) => Some (st', Some e)
      | Some (st', None) => Walk_arg pattern lastCheck st' rest
      end
  end.

(** One iteration of [for changed := range ncc] over such invocations. *)
Definition scan_cycle_arg (pattern : list Regexp) (lastCheck : option snapshot)
    (args : list WalkArg) : option (list Notice * option snapshot * option error) :=
  match Walk_arg pattern lastCheck scan_init args with
  | None => None
  | Some (st, err) =>
      let rem :=
        match lastCheck with
        | Some lc =>
            if Z.of_nat (size lc) >? Z.of_nat (size (visited st)) - created st
            then removals lc (visited st) else []
        | None => []
        end in
      Some (changed st ++ rem, Some (visited st), err)
  end.

(** The invocations a walk gets to: up to and including the first one
    that ends it (an error returned, or a nil [info]). *)
Fixpoint walked_arg (args : list WalkArg) : list WalkArg :=
  match args with
  | [] => []
  | a :: rest =>
      a :: match a with
           | WalkInfo c => match wc_err c with Some _ => [] | None => walked_arg rest end
           | WalkNilInfo _ _ => []
           end
  end.

(** ** monitor.go: [New] *)

(** The [watcher interface{}] argument of [New], by the cases of its type
    switch: a [string], a value whose type implements [Watcher], or any
    other value (including nil), which takes the [default] branch. *)
Inductive WatcherArg :=
| WatcherName (name : string)
| WatcherImpl
| WatcherOther.

Inductive Watcher :=
| pathScanner (address : string) (pattern : list Regexp)
| fileScanner (address : string) (pattern : list Regexp)
| externalWatcher.

Section NewMonitor.

(** [regexp.Compile] of the Go library: [None] is a compile error. *)
Variable Compile : string -> option (string -> bool).

(** Lines 124-133: [patexp := make([]regexp.Regexp, len(pattern),
    len(pattern))], then [patexp = append(patexp, *exp)] per pattern;
    [None] is [Logger.Fatalln] (the process exits). *)
Fixpoint compile_patterns (patexp : list Regexp) (pattern : list string)
  : option (list Regexp) :=
  match pattern with
  | [] => Some patexp
  | pat :: rest =>
      match Compile pat with
      | None => None
      | Some exp => compile_patterns (patexp ++ [Compiled exp]) rest
      end
  end.

(** [New(address, pattern, watcher)]; [None] is a fatal exit (or the
    final [return nil], which is only reached after [Fatalln]). *)
Definition New (address : string) (pattern : list string) (watcher : WatcherArg)
  : option Watcher :=
  match compile_patterns (repeat ZeroRegexp (length pattern)) pattern with
  | None => None
  | Some patexp =>
      match watcher with
      | WatcherName "path" => Some (pathScanner address patexp)
      | WatcherName "file" => Some (fileScanner address patexp)
      | WatcherName _ => None
      | WatcherImpl => Some externalWatcher
      | WatcherOther => None
      end
  end.

End NewMonitor.

(** The older [Monitor.Watch] of [unnamed/part_004], lines 31-40:
    [patexp = make([]regexp.Regexp, 0)], then the same compile-and-append
    loop; [None] is [Logger.Fatalln]. *)
Definition Watch_patexp (Compile : string -> option (string -> bool))
    (pattern : list string) : option (list Regexp) :=
  compile_patterns Compile [] pattern.

(** ** monitor.go: the dispatch loop of [Start], the worker of
    [pathScanner.Watch] and the caller of [Stop], as one transition
    system.

    Channels: [m.closing] and [ncc] and [errorCheck] are unbuffered
    (rendezvous steps below); [noticeBuffer] holds up to
    [notice_buffer_length] notices; [m.notices] is read by a consumer
    that is always ready, so a send on it is part of the step that
    drains the buffer. *)

Definition notice_buffer_length : nat := 1000.

(** The [timeTick] channel variable: nil, a [time.Tick] or a
    [time.After]. *)
Inductive Timer := TNil | TTick | TAfter.

(** [time.Tick(d)] returns nil for [d <= 0]. *)
Definition time_Tick (sleep : Z) : Timer := if 0 <? sleep then TTick else TNil.

(** Where the dispatch loop is: at its [select], blocked in the timer case
    at [ncc <- noticeBuffer], or returned. *)
Inductive MPc := MSelect | MSendReq | MReturned.

(** Where the worker goroutine is: waiting in [range ncc]; scanning
    (notices still to send on [changed], then [visited] and [err]);
    blocked at [errors <- err]; or exited (after [close(errors)]). *)
Inductive WPc :=
| WIdle
| WScan (pending : list Notice) (vis : snapshot) (err : option error)
| WReport (err : option error)
| WExited.

(** The goroutine calling [Stop]: not yet called, blocked at
    [<-stopper], or returned with its result. *)
Inductive SPc :=
| SNotCalled
| SWaiting
| SReturned (err : option error)
| SFatal.

Record Sys := mkSys {
  timeTick : Timer;
  mpc : MPc;
  returning : bool;          (** [returning] holds the stopper *)
  ncc_closed : bool;
  noticeBuffer : list Notice;
  buffer_closed : bool;
  notices_out : list Notice; (** notices sent on [m.notices], in order *)
  notices_closed : bool;
  wpc : WPc;
  lastCheck : option snapshot;
  spc : SPc;
  panicked : bool;           (** the program died of a panic *)
  issued : nat;              (** ghost: buffers handed over on [ncc] *)
  reported : list (option error) (** ghost: statuses received on
                                    [errorCheck], latest first *)
}.

(** Scheduler choices: each constructor is one enabled [select] case or
    goroutine step; [AHandoff] carries what [filepath.Walk] observes in
    the cycle it starts. *)
Inductive Action :=
| ATick
| AHandoff (calls : list WalkCall)
| AEmit
| AFinish
| AStatus
| ADrain
| AStop
| AWorkerExit
| AShutdown.

Section Dispatch.

Variable pattern : list Regexp.   (** [s.pattern] *)
Variable events : list Event.     (** [event ...Event] of [Start] *)
Variable sleep : Z.               (** [sleep time.Duration] of [Start] *)

(** Lines 60-65: [for _, e := range event { if e == n.Type() {
    m.notices <- n } }]. *)
Definition deliver (n : Notice) : list Notice :=
  flat_map (fun e => if N.eqb e (Type_ n) then [n] else []) events.

Definition init : Sys :=
  mkSys (time_Tick sleep) MSelect false false [] false [] false
        WIdle None SNotCalled false 0 [].

Definition crash (s : Sys) : Sys :=
  mkSys (timeTick s) (mpc s) (returning s) (ncc_closed s) (noticeBuffer s)
        (buffer_closed s) (notices_out s) (notices_closed s) (wpc s)
        (lastCheck s) (spc s) true (issued s) (reported s).

(** [Stop] after [<-stopper] returned [e]: a non-nil [e] ends in
    [Logger.Fatalln] ([SFatal]: the process exits); otherwise [close(m.notices)]
    and [return err] with [err] still nil. *)
Definition stop_result (e : option error) : SPc :=
  match e with
  | None => SReturned None
  | Some _ => SFatal
  end.

Definition step (s : Sys) (a : Action) : option Sys :=
  if panicked s then None else
  match a, mpc s, wpc s with
  (* case <-timeTick: timeTick = nil; then blocked at ncc <- noticeBuffer *)
  | ATick, MSelect, _ =>
      match timeTick s with
      | TNil => None
      | _ => Some (mkSys TNil MSendReq (returning s) (ncc_closed s)
                     (noticeBuffer s) (buffer_closed s) (notices_out s)
                     (notices_closed s) (wpc s) (lastCheck s) (spc s)
                     false (issued s) (reported s))
      end
  (* the send on ncc: panics on a closed channel; otherwise a rendezvous
     with the worker's range ncc, which then scans *)
  | AHandoff calls, MSendReq, w =>
      if ncc_closed s then Some (crash s) else
      match w with
      | WIdle =>
          match scan_cycle pattern (lastCheck s) calls with
          | None => Some (crash s)
          | Some (ns, Some vis, err) =>
              Some (mkSys (timeTick s) MSelect (returning s) (ncc_closed s)
                      (noticeBuffer s) (buffer_closed s) (notices_out s)
                      (notices_closed s) (WScan ns vis err) (lastCheck s)
                      (spc s) false (S (issued s)) (reported s))
          | Some (_, None, _) => None
          end
      | _ => None
      end
  (* worker: changed <- notice, blocking while the buffer is full *)
  | AEmit, _, WScan (n :: ns) vis err =>
      if Nat.ltb (length (noticeBuffer s)) notice_buffer_length then
        Some (mkSys (timeTick s) (mpc s) (returning s) (ncc_closed s)
                (noticeBuffer s ++ [n]) (buffer_closed s) (notices_out s)
                (notices_closed s) (WScan ns vis err) (lastCheck s) (spc s)
                false (issued s) (reported s))
      else None
  (* worker: s.lastCheck = visited; then blocked at errors <- err *)
  | AFinish, _, WScan [] vis err =>
      Some (mkSys (timeTick s) (mpc s) (returning s) (ncc_closed s)
              (noticeBuffer s) (buffer_closed s) (notices_out s)
              (notices_closed s) (WReport err) (Some vis) (spc s)
              false (issued s) (reported s))
  (* case err, ok := <-errorCheck with ok *)
  | AStatus, MSelect, WReport err =>
      let t := match err with Some _ => TAfter | None => time_Tick sleep end in
      Some (mkSys t MSelect (returning s) (ncc_closed s)
              (noticeBuffer s) (buffer_closed s) (notices_out s)
              (notices_closed s) WIdle (lastCheck s) (spc s)
              false (issued s) (err :: reported s))
  (* case n := <-noticeBuffer *)
  | ADrain, MSelect, _ =>
      match noticeBuffer s with
      | [] => None
      | n :: rest =>
          Some (mkSys (timeTick s) MSelect (returning s) (ncc_closed s)
                  rest (buffer_closed s) (notices_out s ++ deliver n)
                  (notices_closed s) (wpc s) (lastCheck s) (spc s)
                  false (issued s) (reported s))
      end
  (* Stop: m.closing <- stopper, received by case returning = <-m.closing,
     which runs close(ncc) *)
  | AStop, MSelect, _ =>
      match spc s with
      | SNotCalled =>
          if ncc_closed s then Some (crash s) else
          Some (mkSys (timeTick s) MSelect true true
                  (noticeBuffer s) (buffer_closed s) (notices_out s)
                  (notices_closed s) (wpc s) (lastCheck s) SWaiting
                  false (issued s) (reported s))
      | _ => None
      end
  (* worker: range ncc ends on the closed channel; defer close(errors) *)
  | AWorkerExit, _, WIdle =>
      if ncc_closed s then
        Some (mkSys (timeTick s) (mpc s) (returning s) (ncc_closed s)
                (noticeBuffer s) (buffer_closed s) (notices_out s)
                (notices_closed s) WExited (lastCheck s) (spc s)
                false (issued s) (reported s))
      else None
  (* case err, ok := <-errorCheck with !ok: drop one buffered notice,
     close(noticeBuffer), returning <- nil (blocks forever on a nil
     channel), return; Stop receives it, close(m.notices), returns *)
  | AShutdown, MSelect, WExited =>
      if returning s then
        Some (mkSys (timeTick s) MReturned (returning s) (ncc_closed s)
                (tail (noticeBuffer s)) true (notices_out s) true WExited
                (lastCheck s) (stop_result None) false (issued s) (reported s))
      else None
  | _, _, _ => None
  end.

Inductive reachable : Sys -> Prop :=
| reach_init : reachable init
| reach_step s a s' : reachable s -> step s a = Some s' -> reachable s'.

Fixpoint run (s : Sys) (acts : list Action) : option Sys :=
  match acts with
  | [] => Some s
  | a :: rest => match step s a with Some s' => run s' rest | None => None end
  end.

End Dispatch.

(** ** Analysis of one scan cycle *)

(** The walk callbacks [filepath.Walk] actually makes: up to and including
    the first one that returns an error. *)
Fixpoint walked (calls : list WalkCall) : list WalkCall :=
  match calls with
  | [] => []
  | c :: rest => c :: match wc_err c with Some _ => [] | None => walked rest end
  end.

Fixpoint walk_err (calls : list WalkCall) : option error :=
  match calls with
  | [] => None
  | c :: rest => match wc_err c with Some e => Some e | None => walk_err rest end
  end.

Definition keepb (pattern : list Regexp) (c : WalkCall) : bool :=
  negb (IsDir (wc_info c)) &&
  match pattern_matched pattern (wc_file c) with Some true => true | _ => false end.

(** The Create/Update decision of the callback for a matched file. *)
Definition diff_item (lastCheck : option snapshot) (file : string) (info : FileInfo)
  : list Notice :=
  match map_index lastCheck file with
  | Some oldinfo =>
      if ModTime info >? ModTime oldinfo then [mkNotice file FileUpdate info]
      else if negb (Size oldinfo =? Size info) then [mkNotice file FileUpdate info]
      else []
  | None =>
      match lastCheck with
      | Some _ => [mkNotice file FileCreate info]
      | None => []
      end
  end.

Definition creates (lastCheck : option snapshot) (file : string) : bool :=
  match lastCheck with
  | Some lc => match lc !! file with Some _ => false | None => true end
  | None => false
  end.

Definition item_update (lastCheck : option snapshot) (st : ScanState) (c : WalkCall)
  : ScanState :=
  mkScanState (<[wc_file c := wc_info c]> (visited st))
    (created st + if creates lastCheck (wc_file c) then 1 else 0)
    (changed st ++ diff_item lastCheck (wc_file c) (wc_info c)).

(** The notices of a cycle about one identity. *)
Definition for_path (f : string) (ns : list Notice) : list Notice :=
  List.filter (fun n => String.eqb (path n) f) ns.

(** The names of the flags of [e], by bit position. *)
Definition flag_names (e : Event) : list string :=
  (if N.testbit e 0 then ["notice.FileCreate"] else []) ++
  (if N.testbit e 1 then ["notice.FileUpdate"] else []) ++
  (if N.testbit e 2 then ["notice.FileRemove"] else []) ++
  (if N.testbit e 3 then ["notice.FileRename"] else []).

(** A consumer's view of the set of identities: replaying notices in
    order, a Remove deletes the name and any other kind adds it. *)
Definition replay_keys (S : gset string) (ns : list Notice) : gset string :=
  fold_left (fun S n => if N.eqb (event n) FileRemove then S ∖ {[path n]}
                        else S ∪ {[path n]}) ns S.

(** A scan request is outstanding: the worker holds the buffer and has not
    yet had its status received. *)
Definition outstanding (s : Sys) : bool :=
  match wpc s with
  | WScan _ _ _ | WReport _ => true
  | _ => false
  end.

(** Invariant of the dispatch loop used for the serialisation claim. *)
Definition serial_inv (sleep : Z) (s : Sys) : Prop :=
  issued s = (length (reported s) + if outstanding s then 1 else 0)%nat /\
  (outstanding s = true -> timeTick s = TNil /\ mpc s = MSelect) /\
  (mpc s = MSendReq -> outstanding s = false /\ timeTick s = TNil) /\
  (outstanding s = true \/ mpc s = MSendReq \/ timeTick s <> TNil -> 0 < sleep).

(** Invariant of the dispatch loop used for the claims on [Stop]. *)
Definition stop_inv (s : Sys) : Prop :=
  forall r, spc s = SReturned r ->
    r = None /\ mpc s = MReturned /\ wpc s = WExited /\
    buffer_closed s = true /\ notices_closed s = true.

(** Concrete runs of the dispatch loop with [pattern = []], [events =
    [FileCreate]] and [sleep = 1]: one scan of a tree whose root cannot be
    read, then [Stop]; and one scan handed over for a tree with one file. *)
Definition demo_fail_walk : list WalkCall :=
  [mkWalkCall "d" (mkFileInfo true 0 0) (Some "permission denied")].

Definition demo_stop_actions : list Action :=
  [ATick; AHandoff demo_fail_walk; AFinish; AStatus; AStop; AWorkerExit; AShutdown].

Definition demo_stop_final : Sys :=
  mkSys TAfter MReturned true true [] true [] true WExited (Some ∅)
        (SReturned None) false 1 [Some "permission denied"].

Definition demo_scan_actions : list Action :=
  [ATick; AHandoff [mkWalkCall "a" (mkFileInfo false 1 10) None]].

Definition demo_scan_mid : Sys :=
  mkSys TNil MSelect false false [] false [] false
        (WScan [] {["a" := mkFileInfo false 1 10]} None) None SNotCalled
        false 1 [].

Definition demo_drain_before : Sys :=
  mkSys TTick MSelect false false
        [mkNotice "a" FileCreate (mkFileInfo false 1 10)] false [] false
        WIdle (Some {["a" := mkFileInfo false 1 10]}) SNotCalled false 1 [None].

Definition demo_drain_after : Sys :=
  mkSys TTick MSelect false false [] false
        [mkNotice "a" FileCreate (mkFileInfo false 1 10);
         mkNotice "a" FileCreate (mkFileInfo false 1 10)] false
        WIdle (Some {["a" := mkFileInfo false 1 10]}) SNotCalled false 1 [None].

(** A second scan that sees [a] modified, with [events = [FileUpdate]]:
    its Update notice is buffered, then drained to [m.notices]. *)
Definition demo_update_actions : list Action :=
  [ATick; AHandoff [mkWalkCall "a" (mkFileInfo false 1 10) None]; AFinish; AStatus;
   ATick; AHandoff [mkWalkCall "a" (mkFileInfo false 2 10) None]; AEmit; AFinish;
   AStatus].

Definition demo_update_delivered : Sys :=
  mkSys TTick MSelect false false [] false
        [mkNotice "a" FileUpdate (mkFileInfo false 2 10)] false
        WIdle (Some {["a" := mkFileInfo false 2 10]}) SNotCalled false 2 [None; None].

Module ScanFacts.

Lemma flat_map_nil {A B} (f : A -> list B) (l : list A) :
  (forall x, In x l -> f x = []) -> flat_map f l = [].
Proof.
  induction l as [|x l IH]; intros H; simpl; [reflexivity|].
  rewrite (H x (or_introl eq_refl)). apply IH. intros y Hy. apply H. right. exact Hy.
Qed.

Section Facts.

Variable pattern : list Regexp.

Lemma walkFn_spec lastCheck st c r :
  walkFn pattern lastCheck st c = Some r ->
  r = ((if keepb pattern c then item_update lastCheck st c else st), wc_err c).
Proof.
  unfold walkFn, keepb, item_update, diff_item, creates, send.
  destruct st as [v cr ch]; simpl.
  destruct (IsDir (wc_info c)); simpl; [congruence|].
  destruct (pattern_matched pattern (wc_file c)) as [[|]|]; simpl; [|congruence|congruence].
  destruct lastCheck as [lc|]; simpl;
    [destruct (lc !! wc_file c) as [o|] eqn:E|]; simpl.
  - destruct (ModTime (wc_info c) >? ModTime o); simpl.
    + intros H; inversion H; subst; repeat f_equal; lia.
    + destruct (negb (Size o =? Size (wc_info c))); simpl;
        intros H; inversion H; subst; repeat f_equal; try lia; by rewrite app_nil_r.
  - intros H; inversion H; subst; reflexivity.
  - intros H; inversion H; subst; repeat f_equal; try lia; by rewrite app_nil_r.
Qed.

Lemma Walk_spec lastCheck calls : forall st st' err,
  Walk pattern lastCheck st calls = Some (st', err) ->
  err = walk_err calls /\
  st' = fold_left (item_update lastCheck) (List.filter (keepb pattern) (walked calls)) st.
Proof.
  induction calls as [|c rest IH]; intros st st' err H; simpl in *.
  - inversion H; auto.
  - destruct (walkFn pattern lastCheck st c) as [[st1 e]|] eqn:Hf; [|discriminate].
    apply walkFn_spec in Hf. inversion Hf; subst st1 e.
    destruct (wc_err c) as [e|] eqn:Ec.
    + inversion H; subst. split; [reflexivity|].
      destruct (keepb pattern c); reflexivity.
    + destruct (IH _ _ _ H) as [-> ->]. split; [reflexivity|].
      destruct (keepb pattern c); reflexivity.
Qed.

Lemma NoDup_cons_In {A} (x : A) (l : list A) : NoDup (x :: l) <-> ~ In x l /\ NoDup l.
Proof. rewrite NoDup_cons, list_elem_of_In. tauto. Qed.

Lemma walked_In calls c : In c (walked calls) -> In c calls.
Proof.
  induction calls as [|c0 rest IH]; simpl; [tauto|].
  destruct (wc_err c0); simpl; intuition.
Qed.

Lemma NoDup_map_filter {A B} (f : A -> B) (p : A -> bool) (l : list A) :
  NoDup (map f l) -> NoDup (map f (List.filter p l)).
Proof.
  induction l as [|x l IH]; simpl; [auto|].
  intros Hnd. apply NoDup_cons_In in Hnd as [Hx Hl].
  destruct (p x); simpl; [|auto].
  apply NoDup_cons_In; split; [|auto].
  intros Hin; apply Hx. apply in_map_iff in Hin as (y & Hy & Hy').
  apply filter_In in Hy' as [Hy' _]. apply in_map_iff; eauto.
Qed.

Lemma NoDup_map_walked (calls : list WalkCall) :
  NoDup (map wc_file calls) -> NoDup (map wc_file (walked calls)).
Proof.
  induction calls as [|c rest IH]; simpl; [auto|].
  intros Hnd. apply NoDup_cons_In in Hnd as [Hx Hl].
  apply NoDup_cons_In; split.
  - intros Hin; apply Hx. destruct (wc_err c); simpl in Hin; [contradiction|].
    apply in_map_iff in Hin as (y & Hy & Hy'). apply walked_In in Hy'.
    apply in_map_iff; eauto.
  - destruct (wc_err c); simpl; [constructor|auto].
Qed.

Section Fold.

Variable lastCheck : option snapshot.

Lemma fold_changed P : forall st,
  changed (fold_left (item_update lastCheck) P st) =
  changed st ++ flat_map (fun c => diff_item lastCheck (wc_file c) (wc_info c)) P.
Proof.
  induction P as [|c P IH]; intros st; simpl; [by rewrite app_nil_r|].
  rewrite IH; simpl. by rewrite app_assoc.
Qed.

Lemma fold_created P : forall st,
  created (fold_left (item_update lastCheck) P st) =
  created st + Z.of_nat (length (List.filter (fun c => creates lastCheck (wc_file c)) P)).
Proof.
  induction P as [|c P IH]; intros st; simpl; [lia|].
  rewrite IH; simpl. destruct (creates lastCheck (wc_file c)); simpl; lia.
Qed.

Lemma fold_visited_out P : forall st f,
  ~ In f (map wc_file P) ->
  visited (fold_left (item_update lastCheck) P st) !! f = visited st !! f.
Proof.
  induction P as [|c P IH]; intros st f Hf; simpl in *; [reflexivity|].
  rewrite IH by tauto; simpl. apply lookup_insert_ne. intros Heq; apply Hf; auto.
Qed.

Lemma fold_visited_in P : forall st c,
  NoDup (map wc_file P) -> In c P ->
  visited (fold_left (item_update lastCheck) P st) !! wc_file c = Some (wc_info c).
Proof.
  induction P as [|c0 P IH]; intros st c Hnd Hin; simpl in *; [contradiction|].
  apply NoDup_cons_In in Hnd as [Hx Hl].
  destruct Hin as [<-|Hin].
  - rewrite fold_visited_out by assumption; simpl. apply lookup_insert_eq.
  - auto.
Qed.

Lemma fold_visited_inv P : forall st f i,
  visited (fold_left (item_update lastCheck) P st) !! f = Some i ->
  visited st !! f = Some i \/
  exists c, In c P /\ wc_file c = f /\ wc_info c = i.
Proof.
  induction P as [|c P IH]; intros st f i H; simpl in *; [auto|].
  destruct (IH _ _ _ H) as [H1|(c' & ? & ? & ?)]; [|eauto 10].
  cbn [visited item_update] in H1. destruct (decide (wc_file c = f)) as [<-|Hne].
  - rewrite lookup_insert_eq in H1. inversion H1; eauto 10.
  - rewrite lookup_insert_ne in H1 by assumption. auto.
Qed.

Lemma fold_visited_size P : forall st,
  NoDup (map wc_file P) ->
  (forall c, In c P -> visited st !! wc_file c = None) ->
  size (visited (fold_left (item_update lastCheck) P st)) =
  (size (visited st) + length P)%nat.
Proof.
  induction P as [|c P IH]; intros st Hnd Hnone; simpl in *; [lia|].
  apply NoDup_cons_In in Hnd as [Hx Hl].
  rewrite IH; simpl.
  - rewrite map_size_insert_None by auto. lia.
  - assumption.
  - intros c' Hc'. simpl. rewrite lookup_insert_ne; [auto|].
    intros Heq; apply Hx. rewrite Heq. apply in_map; auto.
Qed.

End Fold.

Lemma fold_visited_indep l1 l2 P : forall st1 st2,
  visited st1 = visited st2 ->
  visited (fold_left (item_update l1) P st1) =
  visited (fold_left (item_update l2) P st2).
Proof.
  induction P as [|c P IH]; intros st1 st2 H; simpl; [auto|].
  apply IH; simpl. by rewrite H.
Qed.

Lemma filter_length_split {A} (p : A -> bool) (l : list A) :
  (length (List.filter p l) + length (List.filter (fun x => negb (p x)) l))%nat = length l.
Proof. induction l as [|x l IH]; simpl; [lia|]. destruct (p x); simpl; lia. Qed.

Lemma removals_nil lc vis :
  (forall f i, lc !! f = Some i -> vis !! f <> None) -> removals lc vis = [].
Proof.
  intros H. unfold removals.
  assert (Hl : forall f i, In (f, i) (map_to_list lc) -> vis !! f <> None).
  { intros f i Hin. apply (H f i). apply elem_of_map_to_list, list_elem_of_In, Hin. }
  induction (map_to_list lc) as [|[f i] l IH]; simpl; [reflexivity|].
  destruct (vis !! f) eqn:E.
  - apply IH. intros; eapply Hl; simpl; eauto.
  - exfalso. eapply Hl; [left; reflexivity|exact E].
Qed.

(** The guard [len(s.lastCheck) > len(visited)-created] only skips the
    removal loop when every previous identity was visited again. *)
Lemma removal_guard lc P :
  NoDup (map wc_file P) ->
  let V := visited (fold_left (item_update (Some lc)) P scan_init) in
  (Z.of_nat (size lc) >? Z.of_nat (size V) -
     created (fold_left (item_update (Some lc)) P scan_init)) = false ->
  removals lc V = [].
Proof.
  intros Hnd V Hg. rewrite Z.gtb_ltb, Z.ltb_ge in Hg.
  rewrite fold_created in Hg. unfold V in Hg.
  rewrite fold_visited_size in Hg by (auto; intros; apply lookup_empty).
  cbn [created visited scan_init] in Hg. rewrite map_size_empty in Hg.
  pose proof (filter_length_split (fun c => creates (Some lc) (wc_file c)) P) as Hsplit.
  set (R := List.filter (fun c => negb (creates (Some lc) (wc_file c))) P) in *.
  set (S := list_to_set (map wc_file R) : gset string).
  assert (HR : NoDup (map wc_file R)) by (apply NoDup_map_filter; auto).
  assert (HS : size S = length R).
  { unfold S. rewrite size_list_to_set by assumption. apply length_map. }
  assert (Hsub : S ⊆ dom lc).
  { intros f Hf. unfold S in Hf. apply elem_of_list_to_set, list_elem_of_In in Hf.
    apply in_map_iff in Hf as (c & <- & Hc). apply filter_In in Hc as [_ Hc].
    unfold creates in Hc. apply elem_of_dom. destruct (lc !! wc_file c); [eauto|discriminate]. }
  assert (Heq : S = dom lc).
  { apply set_subseteq_size_eq; [assumption|]. rewrite size_dom. lia. }
  apply removals_nil. intros f i Hfi.
  assert (Hf : f ∈ S) by (rewrite Heq; apply elem_of_dom; eauto).
  unfold S in Hf. apply elem_of_list_to_set, list_elem_of_In in Hf.
  apply in_map_iff in Hf as (c & <- & Hc). apply filter_In in Hc as [Hc _].
  unfold V. rewrite (fold_visited_in _ _ _ c) by assumption. discriminate.
Qed.

Lemma NoDup_kept calls :
  NoDup (map wc_file calls) ->
  NoDup (map wc_file (List.filter (keepb pattern) (walked calls))).
Proof. intros; apply NoDup_map_filter, NoDup_map_walked; auto. Qed.

(** One cycle in closed form: the forward notices in traversal order,
    then the removal pass over the previous map. *)
Lemma scan_cycle_spec lastCheck calls ns last' err :
  NoDup (map wc_file calls) ->
  scan_cycle pattern lastCheck calls = Some (ns, last', err) ->
  let P := List.filter (keepb pattern) (walked calls) in
  let V := visited (fold_left (item_update lastCheck) P scan_init) in
  err = walk_err calls /\ last' = Some V /\
  ns = flat_map (fun c => diff_item lastCheck (wc_file c) (wc_info c)) P ++
       match lastCheck with Some lc => removals lc V | None => [] end.
Proof.
  intros Hnd H P V. unfold scan_cycle in H.
  destruct (Walk pattern lastCheck scan_init calls) as [[st e]|] eqn:HW; [|discriminate].
  apply Walk_spec in HW as [-> ->]. inversion H; subst; clear H.
  split; [reflexivity|]. split; [reflexivity|].
  rewrite fold_changed; cbn [changed scan_init app]. f_equal.
  destruct lastCheck as [lc|]; [|reflexivity].
  destruct (_ >? _) eqn:Hg; [reflexivity|].
  symmetry. apply removal_guard; [apply NoDup_kept; auto|exact Hg].
Qed.

Lemma diff_item_path l f i n : In n (diff_item l f i) -> path n = f.
Proof.
  unfold diff_item. destruct (map_index l f);
    [destruct (_ >? _); [|destruct (negb _)]|destruct l]; simpl;
    intros; intuition; subst; reflexivity.
Qed.

Lemma diff_item_event l f i n :
  In n (diff_item l f i) -> event n = FileCreate \/ event n = FileUpdate.
Proof.
  unfold diff_item. destruct (map_index l f);
    [destruct (_ >? _); [|destruct (negb _)]|destruct l]; simpl;
    intros; intuition; subst; simpl; auto.
Qed.

Lemma for_path_app f l1 l2 : for_path f (l1 ++ l2) = for_path f l1 ++ for_path f l2.
Proof.
  unfold for_path. induction l1 as [|n l1 IH]; simpl; [reflexivity|].
  destruct (String.eqb (path n) f); simpl; by rewrite IH.
Qed.

Lemma for_path_all f l : (forall n, In n l -> path n = f) -> for_path f l = l.
Proof.
  induction l as [|n l IH]; intros H; simpl; [reflexivity|].
  rewrite (H n (or_introl eq_refl)), String.eqb_refl, IH; auto with datatypes.
Qed.

Lemma for_path_none f l : (forall n, In n l -> path n <> f) -> for_path f l = [].
Proof.
  induction l as [|n l IH]; intros H; simpl; [reflexivity|].
  destruct (String.eqb_spec (path n) f) as [E|E].
  - exfalso; apply (H n); auto with datatypes.
  - apply IH; auto with datatypes.
Qed.

Lemma for_path_forward_out l f P :
  ~ In f (map wc_file P) ->
  for_path f (flat_map (fun c => diff_item l (wc_file c) (wc_info c)) P) = [].
Proof.
  intros Hf. apply for_path_none. intros n Hn.
  apply in_flat_map in Hn as (c & Hc & Hn). apply diff_item_path in Hn.
  rewrite Hn. intros <-. apply Hf, in_map, Hc.
Qed.

Lemma for_path_forward_in l P c :
  NoDup (map wc_file P) -> In c P ->
  for_path (wc_file c) (flat_map (fun c => diff_item l (wc_file c) (wc_info c)) P) =
  diff_item l (wc_file c) (wc_info c).
Proof.
  induction P as [|c0 P IH]; intros Hnd Hin; simpl in *; [contradiction|].
  apply NoDup_cons_In in Hnd as [Hx Hl]. rewrite for_path_app.
  destruct Hin as [<-|Hin].
  - rewrite for_path_all by apply diff_item_path.
    rewrite for_path_forward_out by assumption. apply app_nil_r.
  - rewrite IH by assumption.
    rewrite for_path_none; [reflexivity|].
    intros n Hn. apply diff_item_path in Hn. rewrite Hn.
    intros Heq; apply Hx. rewrite Heq. apply in_map, Hin.
Qed.


Section Removals.

Variable vis : snapshot.

Let rm := fun (fi : string * FileInfo) =>
  let '(file, info) := fi in
  match vis !! file with
  | Some _ => None
  | None => Some (mkNotice file FileRemove info)
  end.

Lemma omap_rm_out (l : list (string * FileInfo)) f :
  f ∉ l.*1 -> for_path f (omap rm l) = [].
Proof.
  induction l as [|[k v] l IH]; intros Hf; simpl; [reflexivity|].
  simpl in Hf. rewrite elem_of_cons in Hf.
  unfold rm at 1. destruct (vis !! k); simpl; [apply IH; tauto|].
  destruct (String.eqb_spec k f) as [->|_]; [tauto|]. apply IH; tauto.
Qed.

Lemma omap_rm_in (l : list (string * FileInfo)) f i :
  NoDup (l.*1) -> (f, i) ∈ l ->
  for_path f (omap rm l) =
  match vis !! f with Some _ => [] | None => [mkNotice f FileRemove i] end.
Proof.
  induction l as [|[k v] l IH]; intros Hnd Hin; [by apply elem_of_nil in Hin|].
  simpl in Hnd. apply NoDup_cons in Hnd as [Hk Hl].
  apply elem_of_cons in Hin as [Heq|Hin].
  - inversion Heq; subst k v. simpl. unfold rm at 1.
    destruct (vis !! f); simpl; [by apply omap_rm_out|].
    rewrite String.eqb_refl. by rewrite omap_rm_out.
  - assert (k <> f).
    { intros ->. apply Hk. apply list_elem_of_fmap. exists (f, i); auto. }
    simpl. unfold rm at 1. destruct (vis !! k); simpl; [by apply IH|].
    destruct (String.eqb_spec k f); [contradiction|]. by apply IH.
Qed.

Lemma omap_rm_event (l : list (string * FileInfo)) n :
  In n (omap rm l) -> event n = FileRemove.
Proof.
  induction l as [|[k v] l IH]; simpl; [tauto|].
  unfold rm at 1. destruct (vis !! k); simpl; [auto|]. intros [<-|H]; auto.
Qed.

End Removals.

Lemma for_path_removals lc vis f :
  for_path f (removals lc vis) =
  match lc !! f with
  | Some i => match vis !! f with Some _ => [] | None => [mkNotice f FileRemove i] end
  | None => []
  end.
Proof.
  unfold removals. destruct (lc !! f) as [i|] eqn:E.
  - apply omap_rm_in; [apply NoDup_fst_map_to_list|]. by apply elem_of_map_to_list.
  - apply omap_rm_out. intros Hin. apply list_elem_of_fmap in Hin as ([k v] & -> & Hin).
    apply elem_of_map_to_list in Hin. simpl in E. congruence.
Qed.

Lemma removals_event lc vis n : In n (removals lc vis) -> event n = FileRemove.
Proof. apply omap_rm_event. Qed.

Lemma forward_sublist l calls :
  map path (flat_map (fun c => diff_item l (wc_file c) (wc_info c))
              (List.filter (keepb pattern) (walked calls)))
  `sublist_of` map wc_file calls.
Proof.
  induction calls as [|c rest IH]; simpl; [constructor|].
  assert (Htl : map path (flat_map (fun c => diff_item l (wc_file c) (wc_info c))
              (List.filter (keepb pattern)
                 (match wc_err c with Some _ => [] | None => walked rest end)))
                `sublist_of` map wc_file rest).
  { destruct (wc_err c); [apply sublist_nil_l|exact IH]. }
  destruct (keepb pattern c); simpl; [|by constructor].
  rewrite map_app.
  assert (Hd : map path (diff_item l (wc_file c) (wc_info c)) = [] \/
               map path (diff_item l (wc_file c) (wc_info c)) = [wc_file c]).
  { unfold diff_item. destruct (map_index l (wc_file c));
      [destruct (_ >? _); [|destruct (negb _)]|destruct l]; simpl; auto. }
  destruct Hd as [-> | ->]; simpl; constructor; exact Htl.
Qed.

Lemma walkFn_none lastCheck st c :
  walkFn pattern lastCheck st c = None <->
  IsDir (wc_info c) = false /\ pattern_matched pattern (wc_file c) = None.
Proof.
  unfold walkFn. destruct (IsDir (wc_info c)); [split; [discriminate|intros [? _]; discriminate]|].
  destruct (pattern_matched pattern (wc_file c)) as [[|]|]; simpl;
    split; intros H; try discriminate; try (destruct H as [_ H]; discriminate); auto.
Qed.

(** Whether the callback panics does not depend on [lastCheck] or on the
    locals. *)
Lemma Walk_defined l1 l2 calls : forall st1 st2 r1,
  Walk pattern l1 st1 calls = Some r1 ->
  exists r2, Walk pattern l2 st2 calls = Some r2 /\ snd r2 = snd r1.
Proof.
  induction calls as [|c rest IH]; intros st1 st2 r1 H; simpl in *.
  - inversion H; subst; eauto.
  - destruct (walkFn pattern l1 st1 c) as [[u1 e1]|] eqn:H1; [|discriminate].
    destruct (walkFn pattern l2 st2 c) as [[u2 e2]|] eqn:H2.
    + apply walkFn_spec in H1, H2. inversion H1; inversion H2; subst e1 e2.
      destruct (wc_err c); [inversion H; subst; eexists; split; reflexivity|].
      eauto.
    + apply walkFn_none in H2. apply (proj2 (walkFn_none l1 st1 c)) in H2. congruence.
Qed.

Lemma visited_char lastCheck calls f i :
  NoDup (map wc_file calls) ->
  visited (fold_left (item_update lastCheck)
             (List.filter (keepb pattern) (walked calls)) scan_init) !! f = Some i <->
  exists c, In c (walked calls) /\ wc_file c = f /\ wc_info c = i /\
            IsDir i = false /\ pattern_matched pattern f = Some true.
Proof.
  intros Hnd. split.
  - intros H. apply fold_visited_inv in H as [H|(c & Hc & Hf & Hi)].
    + simpl in H. rewrite lookup_empty in H. discriminate.
    + apply filter_In in Hc as [Hc Hk]. exists c. subst. repeat split; auto;
        unfold keepb in Hk; apply andb_prop in Hk as [Hd Hm].
      * by apply negb_true_iff in Hd.
      * destruct (pattern_matched pattern (wc_file c)) as [[|]|]; done.
  - intros (c & Hc & <- & <- & Hd & Hm).
    apply fold_visited_in; [by apply NoDup_kept|].
    apply filter_In; split; [auto|]. unfold keepb. by rewrite Hd, Hm.
Qed.

End Facts.

End ScanFacts.

Import ScanFacts.

(** ** Claims about one scan cycle *)

(** C1 (as claimed): a cycle whose traversal reports an error leaves
    [lastCheck] unchanged.  False: with previous [{a, d/sub/b}], a walk
    that visits [a] and then fails reading [d/sub] installs [{a}] and
    sends a Remove for [d/sub/b]. *)
Lemma scan_error_keeps_lastCheck_counterexample :
  ~ (forall pattern lastCheck calls ns last' e,
        scan_cycle pattern lastCheck calls = Some (ns, last', Some e) ->
        last' = lastCheck).
Proof.
  intros H.
  assert (Hrun : scan_cycle [] (Some (<["a" := mkFileInfo false 1 10]>
                        {["d/sub/b" := mkFileInfo false 1 10]}))
                [mkWalkCall "a" (mkFileInfo false 1 10) None;
                 mkWalkCall "d/sub" (mkFileInfo true 1 0) (Some "permission denied")] =
                Some ([mkNotice "d/sub/b" FileRemove (mkFileInfo false 1 10)],
                      Some {["a" := mkFileInfo false 1 10]}, Some "permission denied"))
    by (vm_compute; reflexivity).
  pose proof (H _ _ _ _ _ _ Hrun) as Heq.
  apply (f_equal (fun o : option snapshot =>
    match o with Some m => m !! "d/sub/b" | None => None end)) in Heq.
  vm_compute in Heq. discriminate.
Qed.

(** C1 (amended): when the traversal reports an error, [lastCheck] is
    still replaced, by the map of the matched non-directory files whose
    callbacks ran before the walk stopped (the failing callback
    included). *)
Theorem scan_error_installs_partial_snapshot pattern lastCheck calls ns last' e :
  NoDup (map wc_file calls) ->
  scan_cycle pattern lastCheck calls = Some (ns, last', Some e) ->
  walk_err calls = Some e /\
  exists cur, last' = Some cur /\
    forall f i, cur !! f = Some i <->
      exists c, In c (walked calls) /\ wc_file c = f /\ wc_info c = i /\
                IsDir i = false /\ pattern_matched pattern f = Some true.
Proof.
  intros Hnd H. apply scan_cycle_spec in H as (He & -> & _); [|assumption].
  split; [auto|]. eexists; split; [reflexivity|]. intros f i.
  by apply visited_char.
Qed.

(** C6: for an identity of the current snapshot, with a previous
    snapshot present: one Update if its modification time is strictly
    later or its size differs, nothing otherwise; one Create if the
    previous snapshot lacks it.  Example: previous [{a: mtime 1, size
    10}], current [{a: mtime 2, size 10}] gives exactly one Update for
    [a]. *)
Theorem forward_diff_rule pattern prev calls ns cur err :
  NoDup (map wc_file calls) ->
  scan_cycle pattern (Some prev) calls = Some (ns, Some cur, err) ->
  (forall f info, cur !! f = Some info ->
     for_path f ns =
       match prev !! f with
       | Some old =>
           if (ModTime info >? ModTime old) || negb (Size old =? Size info)
           then [mkNotice f FileUpdate info] else []
       | None => [mkNotice f FileCreate info]
       end) /\
  scan_cycle [] (Some {["a" := mkFileInfo false 1 10]})
    [mkWalkCall "a" (mkFileInfo false 2 10) None] =
  Some ([mkNotice "a" FileUpdate (mkFileInfo false 2 10)],
        Some {["a" := mkFileInfo false 2 10]}, None).
Proof.
  intros Hnd H. split; [|vm_compute; reflexivity].
  apply scan_cycle_spec in H as (_ & Hcur & ->); [|assumption].
  injection Hcur as Hcur; subst cur. intros f info Hf.
  pose proof Hf as Hc. apply visited_char in Hc as (c & Hw & <- & <- & Hd & Hm); [|assumption].
  assert (HP : In c (List.filter (keepb pattern) (walked calls))).
  { apply filter_In; split; [auto|]. unfold keepb. by rewrite Hd, Hm. }
  rewrite for_path_app, for_path_forward_in by (auto using NoDup_kept).
  rewrite for_path_removals, Hf.
  unfold diff_item, map_index. destruct (prev !! wc_file c) as [old|]; [|reflexivity].
  rewrite app_nil_r.
  destruct (ModTime (wc_info c) >? ModTime old); [reflexivity|].
  destruct (negb (Size old =? Size (wc_info c))); reflexivity.
Qed.

(** C7: the notices of a cycle are the Create/Update notices, in
    traversal order, followed by the Remove notices; there is exactly one
    Remove for each identity of the previous snapshot missing from the
    current one and none for any other identity.  Example: previous
    [{a, b}], current [{a}] gives exactly one Remove, for [b]. *)
Theorem removal_pass_and_order pattern prev calls ns cur err :
  NoDup (map wc_file calls) ->
  scan_cycle pattern (Some prev) calls = Some (ns, Some cur, err) ->
  (exists fwd rem, ns = fwd ++ rem /\
     (forall n, In n fwd -> event n = FileCreate \/ event n = FileUpdate) /\
     map path fwd `sublist_of` map wc_file calls /\
     (forall n, In n rem -> event n = FileRemove) /\
     (forall f, for_path f rem =
        match prev !! f, cur !! f with
        | Some i, None => [mkNotice f FileRemove i]
        | _, _ => []
        end)) /\
  scan_cycle []
    (Some (<["a" := mkFileInfo false 1 10]> {["b" := mkFileInfo false 1 10]}))
    [mkWalkCall "a" (mkFileInfo false 1 10) None] =
  Some ([mkNotice "b" FileRemove (mkFileInfo false 1 10)],
        Some {["a" := mkFileInfo false 1 10]}, None).
Proof.
  intros Hnd H. split; [|vm_compute; reflexivity].
  apply scan_cycle_spec in H as (_ & Hcur & ->); [|assumption].
  injection Hcur as Hcur; subst cur.
  eexists _, _. split; [reflexivity|]. split; [|split; [|split]].
  - intros n Hn. apply in_flat_map in Hn as (c & _ & Hn). eapply diff_item_event; eauto.
  - apply forward_sublist.
  - apply removals_event.
  - intros f. rewrite for_path_removals.
    destruct (prev !! f); [|reflexivity].
    destruct (visited _ !! f); reflexivity.
Qed.

(** C8: with no previous snapshot ([lastCheck] nil) the cycle sends no
    notice, and every matched non-directory file visited becomes the
    baseline. *)
Theorem first_scan_is_silent_baseline pattern calls ns last' err :
  NoDup (map wc_file calls) ->
  scan_cycle pattern None calls = Some (ns, last', err) ->
  ns = [] /\
  exists cur, last' = Some cur /\
    forall f i, cur !! f = Some i <->
      exists c, In c (walked calls) /\ wc_file c = f /\ wc_info c = i /\
                IsDir i = false /\ pattern_matched pattern f = Some true.
Proof.
  intros Hnd H. apply scan_cycle_spec in H as (_ & -> & ->); [|assumption].
  split.
  - rewrite app_nil_r. apply flat_map_nil. intros c _. reflexivity.
  - eexists; split; [reflexivity|]. intros f i. by apply visited_char.
Qed.

(** ** The dispatch loop *)

Module DispatchFacts.

Lemma run_reachable pattern events sleep acts : forall s s',
  reachable pattern events sleep s ->
  run pattern events sleep s acts = Some s' ->
  reachable pattern events sleep s'.
Proof.
  induction acts as [|a acts IH]; intros s s' Hr H; simpl in H.
  - inversion H; subst; auto.
  - destruct (step pattern events sleep s a) as [s1|] eqn:E; [|discriminate].
    eapply IH; [eapply reach_step; eauto|exact H].
Qed.

Ltac step_cases H :=
  unfold step in H; simpl in H;
  repeat match type of H with
  | context [match ?x with _ => _ end] => destruct x eqn:?
  | context [if ?x then _ else _] => destruct x eqn:?
  end;
  try discriminate H;
  try (match goal with E : ?a = ?b |- _ => discriminate E end);
  inversion H; subst; clear H; unfold crash in *; simpl in *.

Lemma serial_inv_init sleep : serial_inv sleep (init sleep).
Proof.
  unfold serial_inv, init, time_Tick; simpl.
  destruct (0 <? sleep) eqn:E; repeat split; try discriminate;
    intros [H|[H|H]]; try discriminate; try congruence; lia.
Qed.

Ltac use_premises :=
  repeat match goal with
  | H : ?a = ?a -> _ |- _ => specialize (H eq_refl)
  | H : ?a = ?b -> _ |- _ =>
      let E := fresh in assert (E : a <> b) by discriminate; clear H E
  | H : _ /\ _ |- _ => destruct H
  end.

Lemma serial_inv_step pattern events sleep s a s' :
  serial_inv sleep s -> step pattern events sleep s a = Some s' -> serial_inv sleep s'.
Proof.
  intros (H1 & H2 & H3 & H4) Hs.
  destruct s as [t m ret nc nb bc no ncl w lc sp pn iss rep]; simpl in *.
  destruct w; destruct m; step_cases Hs; unfold serial_inv, outstanding in *; simpl in *;
    subst; use_premises.
  all: repeat split; intros;
    repeat match goal with H : _ \/ _ |- _ => destruct H end;
    try discriminate; try congruence; try lia;
    try (apply H4; first [left; reflexivity | right; left; reflexivity
                         | right; right; intro; discriminate | right; right; assumption]).
Qed.

Lemma stop_inv_step pattern events sleep s a s' :
  stop_inv s -> step pattern events sleep s a = Some s' -> stop_inv s'.
Proof.
  intros Hinv Hs.
  destruct s as [t m ret nc nb bc no ncl w lc sp pn iss rep]; unfold stop_inv in *; simpl in *.
  destruct sp as [| |r0|].
  3: { destruct (Hinv r0 eq_refl) as (Er & Em & Ew & Eb & En). subst.
       step_cases Hs.
       }
  all: intros r Hr; destruct w; destruct m; step_cases Hs; subst;
    try discriminate Hr; unfold stop_result in *; injection Hr as <-; auto 10.
Qed.

Lemma stop_inv_reachable pattern events sleep s :
  reachable pattern events sleep s -> stop_inv s.
Proof.
  induction 1 as [|s a s' Hr IH Hs].
  - intros r Hr; discriminate.
  - eapply stop_inv_step; eauto.
Qed.

Lemma serial_inv_reachable pattern events sleep s :
  reachable pattern events sleep s -> serial_inv sleep s.
Proof.
  induction 1 as [|s a s' Hr IH Hs].
  - apply serial_inv_init.
  - eapply serial_inv_step; eauto.
Qed.

Lemma deliver_repeat events n :
  deliver events n = repeat n (count_occ N.eq_dec events (Type_ n)).
Proof.
  induction events as [|e events IH]; simpl; [reflexivity|].
  rewrite IH. destruct (N.eqb_spec e (Type_ n)), (N.eq_dec e (Type_ n));
    simpl; congruence.
Qed.

Lemma step_drain pattern events sleep s s' n rest :
  step pattern events sleep s ADrain = Some s' ->
  noticeBuffer s = n :: rest ->
  noticeBuffer s' = rest /\ notices_out s' = notices_out s ++ deliver events n.
Proof.
  intros Hs Hb.
  destruct s as [t m ret nc nb bc no ncl w lc sp pn iss rep]; simpl in *; subst nb.
  unfold step in Hs; simpl in Hs. destruct pn; [discriminate|].
  destruct m; try discriminate; inversion Hs; subst; simpl; auto.
Qed.

Lemma no_events_no_delivery pattern sleep s :
  reachable pattern [] sleep s -> notices_out s = [].
Proof.
  induction 1 as [|s a s' Hr IH Hs]; [reflexivity|].
  destruct s as [t m ret nc nb bc no ncl w lc sp pn iss rep]; simpl in *; subst no.
  destruct w; destruct m; step_cases Hs; reflexivity.
Qed.

End DispatchFacts.

Import DispatchFacts.

(** ** Claims about the dispatch loop *)

(** C2 (as claimed): subscriber filtering is bitmask inclusion: a notice
    whose kind includes the Create bit reaches a subscriber asking for
    Create.  False: [Start] compares [e == n.Type()], so a notice of kind
    [Create|Update] is dropped for the subscription [[FileCreate]]. *)
Lemma subscriber_bitmask_filter_counterexample :
  ~ (forall events n,
       N.land (Type_ n) FileCreate = FileCreate -> In FileCreate events ->
       deliver events n <> []).
Proof.
  intros H.
  apply (H [FileCreate]
           (mkNotice "a.log" (N.lor FileCreate FileUpdate) (mkFileInfo false 1 10)));
    [vm_compute; reflexivity | left; reflexivity | vm_compute; reflexivity].
Qed.

(** C2 (amended): when the loop drains a notice [n] from the buffer, what
    it appends to the outbound stream consists of copies of [n] only, and
    is non-empty exactly when the kind of [n] is equal to one of the
    requested events (no bit inclusion). *)
Theorem drain_forwards_exact_kind pattern events sleep s s' n rest :
  step pattern events sleep s ADrain = Some s' ->
  noticeBuffer s = n :: rest ->
  exists fwd, notices_out s' = notices_out s ++ fwd /\
    (forall m, In m fwd -> m = n) /\
    (fwd <> [] <-> In (Type_ n) events).
Proof.
  intros Hs Hb. destruct (step_drain _ _ _ _ _ _ _ Hs Hb) as [_ ->].
  rewrite deliver_repeat. eexists; split; [reflexivity|]. split.
  - intros m Hm. apply repeat_spec in Hm. exact Hm.
  - rewrite (count_occ_In N.eq_dec).
    destruct (count_occ N.eq_dec events (Type_ n)); simpl; split; intros H;
      try lia; congruence.
Qed.

(** C3 (code bug): [New] builds the pattern slice with
    [make([]regexp.Regexp, len(pattern), len(pattern))] and then appends
    the compiled expressions, so for [["\.log$"]] the scanner receives a
    zero [regexp.Regexp] followed by the compiled one.  The first
    non-directory file the walk meets makes [FindStringIndex] run on the
    zero value, which panics: the scan cycle and the dispatch loop crash
    instead of excluding the non-matching files.  The empty pattern list
    does give a scanner that matches every identity. *)
Theorem New_log_pattern_breaks_filtering Compile f address :
  Compile "\.log$" = Some f ->
  New Compile address ["\.log$"] (WatcherName "path") =
    Some (pathScanner address [ZeroRegexp; Compiled f]) /\
  (forall lastCheck file info err rest, IsDir info = false ->
     scan_cycle [ZeroRegexp; Compiled f] lastCheck
       (mkWalkCall file info err :: rest) = None) /\
  (forall events sleep file info err, 0 < sleep -> IsDir info = false ->
     exists s, run [ZeroRegexp; Compiled f] events sleep (init sleep)
                 [ATick; AHandoff [mkWalkCall file info err]] = Some s /\
               panicked s = true) /\
  New Compile address [] (WatcherName "path") = Some (pathScanner address []) /\
  (forall file, pattern_matched [] file = Some true).
Proof.
  intros Hc. split; [|split; [|split; [|split]]].
  - unfold New. simpl. rewrite Hc. reflexivity.
  - intros lastCheck file info err rest Hd.
    unfold scan_cycle; cbn [Walk]; unfold walkFn; cbn [wc_info wc_file wc_err].
    rewrite Hd. reflexivity.
  - intros events sleep file info err Hs Hd. simpl.
    unfold init, time_Tick. rewrite (proj2 (Z.ltb_lt 0 sleep) Hs). simpl.
    unfold step; simpl. unfold scan_cycle; cbn [Walk]; unfold walkFn;
    cbn [wc_info wc_file wc_err]. rewrite Hd. simpl. eexists; split; reflexivity.
  - reflexivity.
  - reflexivity.
Qed.

(** C4 (as claimed): the value [Stop] returns is non-nil exactly when the
    worker reported a failure in its final cycle.  False: after a cycle
    whose walk fails with ["permission denied"], [Stop] still returns nil,
    since [Start] always answers [returning <- nil]. *)
Lemma stop_reports_final_failure_counterexample :
  ~ (forall pattern events sleep s r,
       reachable pattern events sleep s -> spc s = SReturned r ->
       (r <> None <-> exists e, hd_error (reported s) = Some (Some e))).
Proof.
  intros H.
  assert (Hrun : run [] [FileCreate] 1 (init 1) demo_stop_actions =
                 Some demo_stop_final) by (vm_compute; reflexivity).
  pose proof (run_reachable _ _ _ _ _ _ (reach_init _ _ _) Hrun) as Hr.
  destruct (H _ _ _ _ _ Hr eq_refl) as [_ Hback].
  apply Hback; [eexists; reflexivity | reflexivity].
Qed.

(** C4 (amended): when [Stop] returns normally, it returns nil, and only
    after the worker has exited and both the notice buffer and the
    outbound notice channel are closed (a fatal status from [Start] ends
    the process instead). *)
Theorem stop_returns_nil_after_shutdown pattern events sleep s r :
  reachable pattern events sleep s -> spc s = SReturned r ->
  r = None /\ mpc s = MReturned /\ wpc s = WExited /\
  buffer_closed s = true /\ notices_closed s = true.
Proof.
  intros Hr Hs. exact (stop_inv_reachable _ _ _ _ Hr r Hs).
Qed.

(** C5: scan cycles are serialised.  In every reachable state at most one
    request is outstanding (requests issued = statuses received + 0 or 1);
    while one is outstanding the timer is nil, so the timer branch cannot
    fire; a hand-over of the buffer only happens with no request
    outstanding; and receiving the status ends the request and re-arms
    the timer. *)
Theorem scan_cycles_serialized pattern events sleep s :
  reachable pattern events sleep s ->
  issued s = (length (reported s) + if outstanding s then 1 else 0)%nat /\
  (outstanding s = true -> timeTick s = TNil /\ mpc s = MSelect) /\
  (forall calls s', step pattern events sleep s (AHandoff calls) = Some s' ->
     outstanding s = false /\
     (panicked s' = false -> outstanding s' = true /\ issued s' = S (issued s))) /\
  (forall s', step pattern events sleep s AStatus = Some s' ->
     outstanding s' = false /\ timeTick s' <> TNil /\
     length (reported s') = S (length (reported s))).
Proof.
  intros Hr. destruct (serial_inv_reachable _ _ _ _ Hr) as (H1 & H2 & H3 & H4).
  split; [exact H1|]. split; [exact H2|]. split.
  - intros calls s' Hs.
    destruct s as [t m ret nc nb bc no ncl w lc sp pn iss rep]; simpl in *.
    destruct w; destruct m; step_cases Hs; unfold outstanding in *; simpl in *;
      try discriminate.
    all: split; [first [reflexivity | exact (proj1 (H3 eq_refl))]
                | intros; first [discriminate | split; reflexivity]].
  - intros s' Hs.
    destruct s as [t m ret nc nb bc no ncl w lc sp pn iss rep]; simpl in *.
    destruct w; destruct m; step_cases Hs; subst; unfold outstanding in *; simpl in *.
    all: split; [reflexivity|]; split; [|reflexivity].
    all: unfold time_Tick in *;
      repeat match goal with |- context [if ?b then _ else _] => destruct b eqn:? end;
      try discriminate.
    all: exfalso; match goal with E : (0 <? _) = false |- _ => apply Z.ltb_ge in E end;
      specialize (H4 (or_introl eq_refl)); lia.
Qed.

(** C10: draining a notice [n] appends exactly [k] copies of [n] to the
    outbound stream, [k] being the number of occurrences of the kind of
    [n] in the event list given to [Start]; with an empty event list no
    notice is ever delivered. *)
Theorem drain_delivers_per_occurrence pattern events sleep s s' n rest :
  step pattern events sleep s ADrain = Some s' ->
  noticeBuffer s = n :: rest ->
  notices_out s' = notices_out s ++ repeat n (count_occ N.eq_dec events (Type_ n)) /\
  (forall s0, reachable pattern [] sleep s0 -> notices_out s0 = []).
Proof.
  intros Hs Hb. destruct (step_drain _ _ _ _ _ _ _ Hs Hb) as [_ ->].
  rewrite deliver_repeat. split; [reflexivity|].
  intros s0. apply no_events_no_delivery.
Qed.

(** ** Instances of the theorems on concrete runs *)

(** A walk that records [d/a] and then fails on the directory [d/sub]. *)
Lemma scan_error_installs_partial_snapshot_witness :
  NoDup (map wc_file [mkWalkCall "d/a" (mkFileInfo false 1 10) None;
                      mkWalkCall "d/sub" (mkFileInfo true 1 0) (Some "permission denied")]) /\
  walk_err [mkWalkCall "d/a" (mkFileInfo false 1 10) None;
            mkWalkCall "d/sub" (mkFileInfo true 1 0) (Some "permission denied")] =
    Some "permission denied" /\
  exists cur : snapshot, Some {["d/a" := mkFileInfo false 1 10]} = Some cur /\
    forall f i, cur !! f = Some i <->
      exists c, In c (walked [mkWalkCall "d/a" (mkFileInfo false 1 10) None;
                              mkWalkCall "d/sub" (mkFileInfo true 1 0)
                                (Some "permission denied")]) /\
                wc_file c = f /\ wc_info c = i /\
                IsDir i = false /\ pattern_matched [] f = Some true.
Proof.
  split; [apply (bool_decide_unpack _); vm_compute; reflexivity|].
  apply (scan_error_installs_partial_snapshot [] None
           [mkWalkCall "d/a" (mkFileInfo false 1 10) None;
            mkWalkCall "d/sub" (mkFileInfo true 1 0) (Some "permission denied")]
           [] (Some {["d/a" := mkFileInfo false 1 10]}) "permission denied").
  - apply (bool_decide_unpack _); vm_compute; reflexivity.
  - vm_compute; reflexivity.
Defined.

Lemma forward_diff_rule_witness :
  (forall f info, ({["a" := mkFileInfo false 2 10]} : snapshot) !! f = Some info ->
     for_path f [mkNotice "a" FileUpdate (mkFileInfo false 2 10)] =
       match ({["a" := mkFileInfo false 1 10]} : snapshot) !! f with
       | Some old =>
           if (ModTime info >? ModTime old) || negb (Size old =? Size info)
           then [mkNotice f FileUpdate info] else []
       | None => [mkNotice f FileCreate info]
       end) /\
  scan_cycle [] (Some {["a" := mkFileInfo false 1 10]})
    [mkWalkCall "a" (mkFileInfo false 2 10) None] =
  Some ([mkNotice "a" FileUpdate (mkFileInfo false 2 10)],
        Some {["a" := mkFileInfo false 2 10]}, None).
Proof.
  apply (forward_diff_rule [] {["a" := mkFileInfo false 1 10]}
           [mkWalkCall "a" (mkFileInfo false 2 10) None]
           [mkNotice "a" FileUpdate (mkFileInfo false 2 10)]
           {["a" := mkFileInfo false 2 10]} None).
  - apply (bool_decide_unpack _); vm_compute; reflexivity.
  - vm_compute; reflexivity.
Defined.

Lemma removal_pass_and_order_witness :
  (exists fwd rem, [mkNotice "b" FileRemove (mkFileInfo false 1 10)] = fwd ++ rem /\
     (forall n, In n fwd -> event n = FileCreate \/ event n = FileUpdate) /\
     map path fwd `sublist_of` map wc_file [mkWalkCall "a" (mkFileInfo false 1 10) None] /\
     (forall n, In n rem -> event n = FileRemove) /\
     (forall f, for_path f rem =
        match (<["a" := mkFileInfo false 1 10]> {["b" := mkFileInfo false 1 10]} : snapshot) !! f,
              ({["a" := mkFileInfo false 1 10]} : snapshot) !! f with
        | Some i, None => [mkNotice f FileRemove i]
        | _, _ => []
        end)) /\
  scan_cycle []
    (Some (<["a" := mkFileInfo false 1 10]> {["b" := mkFileInfo false 1 10]}))
    [mkWalkCall "a" (mkFileInfo false 1 10) None] =
  Some ([mkNotice "b" FileRemove (mkFileInfo false 1 10)],
        Some {["a" := mkFileInfo false 1 10]}, None).
Proof.
  apply (removal_pass_and_order []
           (<["a" := mkFileInfo false 1 10]> {["b" := mkFileInfo false 1 10]})
           [mkWalkCall "a" (mkFileInfo false 1 10) None]
           [mkNotice "b" FileRemove (mkFileInfo false 1 10)]
           {["a" := mkFileInfo false 1 10]} None).
  - apply (bool_decide_unpack _); vm_compute; reflexivity.
  - vm_compute; reflexivity.
Defined.

Lemma first_scan_is_silent_baseline_witness :
  ([] : list Notice) = [] /\
  exists cur : snapshot, Some {["a" := mkFileInfo false 1 10]} = Some cur /\
    forall f i, cur !! f = Some i <->
      exists c, In c (walked [mkWalkCall "a" (mkFileInfo false 1 10) None]) /\
                wc_file c = f /\ wc_info c = i /\
                IsDir i = false /\ pattern_matched [] f = Some true.
Proof.
  apply (first_scan_is_silent_baseline []
           [mkWalkCall "a" (mkFileInfo false 1 10) None] []
           (Some {["a" := mkFileInfo false 1 10]}) None).
  - apply (bool_decide_unpack _); vm_compute; reflexivity.
  - vm_compute; reflexivity.
Defined.

(** Subscription [[FileCreate; FileCreate]]: a Create notice is forwarded twice. *)
Lemma drain_forwards_exact_kind_witness :
  step [] [FileCreate; FileCreate] 1 demo_drain_before ADrain = Some demo_drain_after /\
  exists fwd, notices_out demo_drain_after = notices_out demo_drain_before ++ fwd /\
    (forall m, In m fwd -> m = mkNotice "a" FileCreate (mkFileInfo false 1 10)) /\
    (fwd <> [] <-> In (Type_ (mkNotice "a" FileCreate (mkFileInfo false 1 10)))
                      [FileCreate; FileCreate]).
Proof.
  split; [vm_compute; reflexivity|].
  apply (drain_forwards_exact_kind [] [FileCreate; FileCreate] 1
           demo_drain_before demo_drain_after
           (mkNotice "a" FileCreate (mkFileInfo false 1 10)) []);
    vm_compute; reflexivity.
Defined.

Lemma New_log_pattern_breaks_filtering_witness :
  New (fun _ => Some (fun _ => true)) "/var/log" ["\.log$"] (WatcherName "path") =
    Some (pathScanner "/var/log" [ZeroRegexp; Compiled (fun _ => true)]) /\
  (forall lastCheck file info err rest, IsDir info = false ->
     scan_cycle [ZeroRegexp; Compiled (fun _ => true)] lastCheck
       (mkWalkCall file info err :: rest) = None) /\
  (forall events sleep file info err, 0 < sleep -> IsDir info = false ->
     exists s, run [ZeroRegexp; Compiled (fun _ => true)] events sleep (init sleep)
                 [ATick; AHandoff [mkWalkCall file info err]] = Some s /\
               panicked s = true) /\
  New (fun _ => Some (fun _ => true)) "/var/log" [] (WatcherName "path") =
    Some (pathScanner "/var/log" []) /\
  (forall file, pattern_matched [] file = Some true).
Proof.
  apply (New_log_pattern_breaks_filtering (fun _ => Some (fun _ => true))
           (fun _ => true) "/var/log").
  reflexivity.
Defined.

Lemma stop_returns_nil_after_shutdown_witness :
  reachable [] [FileCreate] 1 demo_stop_final /\
  spc demo_stop_final = SReturned None /\
  (None : option error) = None /\ mpc demo_stop_final = MReturned /\ wpc demo_stop_final = WExited /\
  buffer_closed demo_stop_final = true /\ notices_closed demo_stop_final = true.
Proof.
  assert (Hr : reachable [] [FileCreate] 1 demo_stop_final).
  { apply (run_reachable [] [FileCreate] 1 demo_stop_actions (init 1));
      [apply reach_init | vm_compute; reflexivity]. }
  split; [exact Hr|]. split; [reflexivity|].
  exact (stop_returns_nil_after_shutdown [] [FileCreate] 1 demo_stop_final None
           Hr eq_refl).
Defined.

(** A cycle handed to the worker and not yet reported. *)
Lemma scan_cycles_serialized_witness :
  reachable [] [FileCreate] 1 demo_scan_mid /\
  issued demo_scan_mid =
    (length (reported demo_scan_mid) + if outstanding demo_scan_mid then 1 else 0)%nat /\
  (outstanding demo_scan_mid = true ->
     timeTick demo_scan_mid = TNil /\ mpc demo_scan_mid = MSelect) /\
  (forall calls s', step [] [FileCreate] 1 demo_scan_mid (AHandoff calls) = Some s' ->
     outstanding demo_scan_mid = false /\
     (panicked s' = false -> outstanding s' = true /\ issued s' = S (issued demo_scan_mid))) /\
  (forall s', step [] [FileCreate] 1 demo_scan_mid AStatus = Some s' ->
     outstanding s' = false /\ timeTick s' <> TNil /\
     length (reported s') = S (length (reported demo_scan_mid))).
Proof.
  assert (Hr : reachable [] [FileCreate] 1 demo_scan_mid).
  { apply (run_reachable [] [FileCreate] 1 demo_scan_actions (init 1));
      [apply reach_init | vm_compute; reflexivity]. }
  split; [exact Hr|].
  exact (scan_cycles_serialized [] [FileCreate] 1 demo_scan_mid Hr).
Defined.

Lemma drain_delivers_per_occurrence_witness :
  step [] [FileCreate; FileCreate] 1 demo_drain_before ADrain = Some demo_drain_after /\
  notices_out demo_drain_after =
    notices_out demo_drain_before ++
    repeat (mkNotice "a" FileCreate (mkFileInfo false 1 10))
      (count_occ N.eq_dec [FileCreate; FileCreate]
         (Type_ (mkNotice "a" FileCreate (mkFileInfo false 1 10)))) /\
  (forall s0, reachable [] [] 1 s0 -> notices_out s0 = []).
Proof.
  split; [vm_compute; reflexivity|].
  apply (drain_delivers_per_occurrence [] [FileCreate; FileCreate] 1
           demo_drain_before demo_drain_after
           (mkNotice "a" FileCreate (mkFileInfo false 1 10)) []);
    vm_compute; reflexivity.
Defined.

(** ** Further properties of the code *)

Module ExtraFacts.

Local Open Scope N_scope.

(** [Event.String]. *)
Lemma land_pow2_eqb e k :
  N.eqb (N.land e (N.shiftl 1 k)) (N.shiftl 1 k) = N.testbit e k.
Proof.
  rewrite N.shiftl_1_l.
  assert (H : N.land e (2 ^ k) = if N.testbit e k then 2 ^ k else 0%N).
  { apply N.bits_inj_iff. intros i. rewrite N.land_spec, N.pow2_bits_eqb.
    destruct (N.eqb_spec k i) as [->|Hki].
    - destruct (N.testbit e i) eqn:E; [rewrite N.pow2_bits_eqb, N.eqb_refl|];
        rewrite ?N.bits_0; now rewrite ?andb_true_r.
    - rewrite andb_false_r. destruct (N.testbit e k);
        [rewrite N.pow2_bits_eqb; symmetry; now apply N.eqb_neq | now rewrite N.bits_0]. }
  rewrite H. destruct (N.testbit e k).
  - apply N.eqb_refl.
  - apply N.eqb_neq. pose proof (N.pow_nonzero 2 k). lia.
Qed.

Lemma filter_Permutation_bool {A} (p : A -> bool) (l l' : list A) :
  l ≡ₚ l' -> List.filter p l ≡ₚ List.filter p l'.
Proof.
  induction 1; simpl; try destruct (p x); try destruct (p y); eauto using Permutation.
Qed.

Lemma eventName_list :
  map_to_list eventName ≡ₚ
  [(FileCreate, "notice.FileCreate"); (FileUpdate, "notice.FileUpdate");
   (FileRemove, "notice.FileRemove"); (FileRename, "notice.FileRename")].
Proof.
  assert (E : map_to_list eventName =
    [(FileRename, "notice.FileRename"); (FileRemove, "notice.FileRemove");
     (FileUpdate, "notice.FileUpdate"); (FileCreate, "notice.FileCreate")])
    by (vm_compute; reflexivity).
  rewrite E. symmetry. exact (Permutation_rev _).
Qed.

Lemma Event_String_names order e :
  order ≡ₚ map_to_list eventName ->
  map snd (List.filter (fun p => N.eqb (N.land e p.1) p.1) order) ≡ₚ flag_names e.
Proof.
  intros Hp. rewrite eventName_list in Hp.
  etrans; [apply Permutation_map, filter_Permutation_bool, Hp|].
  unfold FileCreate, FileUpdate, FileRemove, FileRename, flag_names. simpl.
  rewrite !land_pow2_eqb.
  destruct (N.testbit e 0), (N.testbit e 1), (N.testbit e 2), (N.testbit e 3);
    reflexivity.
Qed.


Lemma Event_String_single order e x :
  order ≡ₚ map_to_list eventName -> flag_names e = [x] -> Event_String order e = x.
Proof.
  intros Hp Hf. pose proof (Event_String_names order e Hp) as Hn. rewrite Hf in Hn.
  unfold Event_String. symmetry in Hn. apply Permutation_length_1_inv in Hn.
  rewrite Hn. reflexivity.
Qed.

(** [New] and [Monitor.Watch]: the compile loop. *)
Lemma compile_patterns_ok Compile pats fs acc :
  Forall2 (fun p f => Compile p = Some f) pats fs ->
  compile_patterns Compile acc pats = Some (acc ++ map Compiled fs).
Proof.
  intros H. revert acc. induction H as [|p f pats fs Hc Hr IH]; intros acc.
  - simpl. now rewrite app_nil_r.
  - simpl. rewrite Hc, IH. simpl. now rewrite <- app_assoc.
Qed.

Lemma compile_patterns_fail Compile pats : forall acc,
  Exists (fun p => Compile p = None) pats ->
  compile_patterns Compile acc pats = None.
Proof.
  induction pats as [|p pats IH]; intros acc H; inversion H as [? ? Hc|? ? Hr]; subst; simpl.
  - now rewrite Hc.
  - destruct (Compile p); [apply IH, Hr | reflexivity].
Qed.

Lemma compile_patterns_shape Compile pats : forall acc pe,
  compile_patterns Compile acc pats = Some pe ->
  exists fs, pe = acc ++ map Compiled fs /\ Forall2 (fun p f => Compile p = Some f) pats fs.
Proof.
  induction pats as [|p pats IH]; intros acc pe H; simpl in H.
  - injection H as <-. exists []. rewrite app_nil_r. auto.
  - destruct (Compile p) as [f|] eqn:Hc; [|discriminate].
    destruct (IH _ _ H) as (fs & -> & Hf). exists (f :: fs).
    rewrite <- app_assoc. auto.
Qed.

(** The pattern loop. *)
Lemma match_loop_compiled fs file b :
  match_loop (map Compiled fs) file b = Some (existsb (fun g => g file) fs || b).
Proof.
  induction fs as [|g fs IH]; simpl; [reflexivity|].
  destruct (g file); simpl; [reflexivity|exact IH].
Qed.

Lemma match_loop_zero_prefix n rest file b :
  (0 < n)%nat -> match_loop (repeat ZeroRegexp n ++ rest) file b = None.
Proof. destruct n; [lia|reflexivity]. Qed.

Section WalkPanic.
Variable pattern : list Regexp.

Lemma Walk_none lastCheck calls : forall st,
  Walk pattern lastCheck st calls = None <->
  Exists (fun c => IsDir (wc_info c) = false /\
                   pattern_matched pattern (wc_file c) = None) (walked calls).
Proof.
  induction calls as [|c rest IH]; intros st; simpl.
  - split; [discriminate | intros H; inversion H].
  - rewrite Exists_cons, <- (walkFn_none pattern lastCheck st c).
    destruct (walkFn pattern lastCheck st c) as [[st' e]|] eqn:Hw.
    + pose proof (walkFn_spec _ _ _ _ _ Hw) as Hs. injection Hs as _ He.
      rewrite He. destruct (wc_err c) as [e'|].
      * split; [discriminate|]. intros [H|H]; [discriminate|inversion H].
      * rewrite IH. split; [auto|]. intros [H|H]; [discriminate|exact H].
    + split; auto.
Qed.

End WalkPanic.

Lemma Walk_arg_map pattern lastCheck calls : forall st,
  Walk_arg pattern lastCheck st (map WalkInfo calls) = Walk pattern lastCheck st calls.
Proof.
  induction calls as [|c rest IH]; intros st; simpl; [reflexivity|].
  destruct (walkFn pattern lastCheck st c) as [[st' [e|]]|]; auto.
Qed.

Lemma scan_cycle_arg_map pattern lastCheck calls :
  scan_cycle_arg pattern lastCheck (map WalkInfo calls) = scan_cycle pattern lastCheck calls.
Proof. unfold scan_cycle_arg, scan_cycle. rewrite Walk_arg_map. reflexivity. Qed.

Lemma Walk_arg_none pattern lastCheck args : forall st,
  Walk_arg pattern lastCheck st args = None <->
  Exists (fun a => match a with
                   | WalkInfo c => IsDir (wc_info c) = false /\
                                   pattern_matched pattern (wc_file c) = None
                   | WalkNilInfo _ _ => True
                   end) (walked_arg args).
Proof.
  induction args as [|[c|file e] rest IH]; intros st; simpl.
  - split; [discriminate | intros H; inversion H].
  - rewrite Exists_cons, <- (walkFn_none pattern lastCheck st c).
    destruct (walkFn pattern lastCheck st c) as [[st' e]|] eqn:Hw.
    + pose proof (walkFn_spec _ _ _ _ _ Hw) as Hs. injection Hs as _ He.
      rewrite He. destruct (wc_err c) as [e'|].
      * split; [discriminate|]. intros [H|H]; [discriminate|inversion H].
      * rewrite IH. split; [auto|]. intros [H|H]; [discriminate|exact H].
    + split; auto.
  - split; [intros _; left; exact I | reflexivity].
Qed.

Lemma scan_cycle_arg_none pattern lastCheck args :
  scan_cycle_arg pattern lastCheck args = None <->
  Walk_arg pattern lastCheck scan_init args = None.
Proof.
  unfold scan_cycle_arg. destruct (Walk_arg _ _ _ _) as [[st e]|]; split; congruence.
Qed.


(** One identity across a cycle. *)
Lemma for_path_cycle pattern prev calls ns cur err f :
  NoDup (map wc_file calls) ->
  scan_cycle pattern (Some prev) calls = Some (ns, Some cur, err) ->
  for_path f ns =
    match cur !! f with
    | Some i => diff_item (Some prev) f i
    | None => match prev !! f with Some i => [mkNotice f FileRemove i] | None => [] end
    end.
Proof.
  intros Hnd H. apply scan_cycle_spec in H as (_ & Hcur & ->); [|assumption].
  injection Hcur as Hcur; subst cur.
  rewrite for_path_app, for_path_removals.
  destruct (visited _ !! f) as [i|] eqn:Hf.
  - pose proof Hf as Hc.
    apply visited_char in Hc as (c & Hw & <- & <- & Hd & Hm); [|assumption].
    assert (HP : In c (List.filter (keepb pattern) (walked calls))).
    { apply filter_In; split; [auto|]. unfold keepb. by rewrite Hd, Hm. }
    rewrite for_path_forward_in by (auto using NoDup_kept).
    destruct (prev !! wc_file c); apply app_nil_r.
  - rewrite for_path_forward_out; [reflexivity|].
    intros Hin. apply in_map_iff in Hin as (c & <- & Hc).
    rewrite fold_visited_in in Hf; [discriminate| by apply NoDup_kept | exact Hc].
Qed.

Lemma diff_item_shape l f i :
  diff_item l f i = [] \/ diff_item l f i = [mkNotice f FileUpdate i] \/
  diff_item l f i = [mkNotice f FileCreate i].
Proof.
  unfold diff_item. destruct (map_index l f); [|destruct l]; auto.
  destruct (_ >? _); [auto|]. destruct (negb _); auto.
Qed.

Lemma replay_elem ns : forall S f,
  f ∈ replay_keys S ns <->
  match last (for_path f ns) with
  | Some n => event n <> FileRemove
  | None => f ∈ S
  end.
Proof.
  induction ns as [|n ns IH]; intros S f; [reflexivity|].
  unfold replay_keys in *. cbn [fold_left]. rewrite IH.
  assert (Hc : for_path f (n :: ns) =
               if String.eqb (path n) f then n :: for_path f ns else for_path f ns)
    by reflexivity.
  rewrite Hc.
  destruct (last (for_path f ns)) as [m|] eqn:Hl.
  - destruct (String.eqb (path n) f); [|rewrite Hl; reflexivity].
    rewrite last_cons, Hl. reflexivity.
  - destruct (String.eqb_spec (path n) f) as [Heq|Hne].
    + rewrite last_cons, Hl.
      destruct (N.eqb_spec (event n) FileRemove); set_solver.
    + rewrite Hl. destruct (N.eqb (event n) FileRemove); set_solver.
Qed.


Lemma Forall2_In_r {A B} (P : A -> B -> Prop) l k y :
  Forall2 P l k -> In y k -> exists x, In x l /\ P x y.
Proof.
  intros H. induction H as [|x y' l k Hxy _ IH]; intros Hy; simpl in Hy; [contradiction|].
  destruct Hy as [Heq|Hk].
  - subst. exists x. split; [left; reflexivity|assumption].
  - destruct (IH Hk) as (x' & ? & ?). exists x'. split; [right|]; assumption.
Qed.

Lemma Forall2_In_l {A B} (P : A -> B -> Prop) l k x :
  Forall2 P l k -> In x l -> exists y, In y k /\ P x y.
Proof.
  intros H. induction H as [|x' y l k Hxy _ IH]; intros Hx; simpl in Hx; [contradiction|].
  destruct Hx as [Heq|Hl].
  - subst. exists y. split; [left; reflexivity|assumption].
  - destruct (IH Hl) as (y' & ? & ?). exists y'. split; [right|]; assumption.
Qed.

(** The dispatch loop only extends [notices_out] by draining. *)
Lemma step_notices_out pattern events sleep s a s' :
  step pattern events sleep s a = Some s' ->
  notices_out s' = notices_out s \/
  exists n rest, noticeBuffer s = n :: rest /\
                 notices_out s' = notices_out s ++ deliver events n.
Proof.
  intros Hs. destruct s as [t m ret nc nb bc no ncl w lc sp pn iss rep].
  destruct w; destruct m; step_cases Hs; eauto.
Qed.

Lemma In_deliver events n m : In m (deliver events n) -> m = n /\ In (Type_ n) events.
Proof.
  unfold deliver. intros Hm. apply in_flat_map in Hm as (e & He & Hm).
  destruct (N.eqb_spec e (Type_ n)) as [<-|]; [|destruct Hm].
  destruct Hm as [<-|[]]. auto.
Qed.


Lemma match_loop_none ps file b :
  match_loop ps file b = None <->
  exists pre post, ps = pre ++ ZeroRegexp :: post /\
    Forall (fun r => FindStringIndex r file = Some false) pre.
Proof.
  induction ps as [|r ps IH]; simpl.
  - split; [discriminate|]. intros (pre & post & H & _). destruct pre; discriminate.
  - destruct r as [|g]; simpl.
    + split; [intros _; exists [], ps; auto | auto].
    + destruct (g file) eqn:Hg.
      * split; [discriminate|]. intros (pre & post & H & HF).
        destruct pre as [|r pre]; simpl in H; [discriminate|].
        injection H as Er _; subst r. inversion HF as [|? ? Hr _]; subst. simpl in Hr. congruence.
      * rewrite IH. split.
        -- intros (pre & post & -> & HF). exists (Compiled g :: pre), post.
           split; [reflexivity|]. constructor; [simpl; congruence|exact HF].
        -- intros (pre & post & H & HF). destruct pre as [|r pre]; simpl in H; [discriminate|].
           injection H as Er Ep; subst r ps. inversion HF; subst. eauto.
Qed.

Lemma match_loop_true ps file b :
  match_loop ps file b = Some true <->
  (b = true /\ Forall (fun r => FindStringIndex r file = Some false) ps) \/
  exists pre g post, ps = pre ++ Compiled g :: post /\ g file = true /\
    Forall (fun r => FindStringIndex r file = Some false) pre.
Proof.
  induction ps as [|r ps IH]; simpl.
  - split.
    + intros H. injection H as ->. auto.
    + intros [[-> _]|(pre & g & post & H & _)]; [reflexivity|]. destruct pre; discriminate.
  - destruct r as [|g]; simpl.
    + split; [discriminate|]. intros [[_ HF]|(pre & g & post & H & _ & HF)].
      * inversion HF as [|? ? Hr _]; discriminate.
      * destruct pre as [|r pre]; simpl in H; [discriminate|].
        injection H as Er _; subst r. inversion HF as [|? ? Hr _]; discriminate.
    + destruct (g file) eqn:Hg.
      * split; [intros _; right; exists [], g, ps; auto|reflexivity].
      * rewrite IH. split.
        -- intros [[-> HF]|(pre & g' & post & -> & Hg' & HF)].
           ++ left. split; [reflexivity|]. constructor; [simpl; congruence|exact HF].
           ++ right. exists (Compiled g :: pre), g', post. split; [reflexivity|].
              split; [exact Hg'|]. constructor; [simpl; congruence|exact HF].
        -- intros [[-> HF]|(pre & g' & post & H & Hg' & HF)].
           ++ inversion HF; subst. auto.
           ++ destruct pre as [|r pre]; simpl in H.
              ** injection H as Er _. subst. congruence.
              ** injection H as Er Ep; subst r ps. inversion HF; subst. right. exists pre, g', post. auto.
Qed.

End ExtraFacts.

Import ExtraFacts.

(** C9: a cycle with a previous snapshot [A] whose walk yields the
    snapshot [A] again (the same matched regular files with the same
    modification times and sizes, whatever else the walk sees) sends no
    Create, Update or Remove notice. *)
Theorem unchanged_tree_no_notices pattern A calls ns err :
  NoDup (map wc_file calls) ->
  scan_cycle pattern (Some A) calls = Some (ns, Some A, err) ->
  ns = [].
Proof.
  intros Hnd H.
  assert (Hf : forall f, for_path f ns = []).
  { intros f. rewrite (for_path_cycle _ _ _ _ _ _ f Hnd H).
    destruct (A !! f) as [i|] eqn:Ha; [|reflexivity].
    unfold diff_item, map_index. rewrite Ha.
    rewrite Z.gtb_ltb, Z.ltb_irrefl, Z.eqb_refl. reflexivity. }
  destruct ns as [|n rest]; [reflexivity|].
  specialize (Hf (path n)). unfold for_path in Hf. simpl in Hf.
  rewrite String.eqb_refl in Hf. discriminate.
Qed.

(** New: when every pattern compiles, the watcher name "path" or "file" gives a scanner with [len(pattern)] zero regexps followed by the compiled ones, and a [Watcher] value is installed as it is; a value of any other type ends in Logger.Fatalln; one failing pattern makes [New] fail (Logger.Fatalln) whatever the watcher; an unknown watcher name gives no monitor. *)
Theorem New_pattern_layout Compile address pats :
  (forall fs, Forall2 (fun p f => Compile p = Some f) pats fs ->
     New Compile address pats (WatcherName "path") =
       Some (pathScanner address (repeat ZeroRegexp (length pats) ++ map Compiled fs)) /\
     New Compile address pats (WatcherName "file") =
       Some (fileScanner address (repeat ZeroRegexp (length pats) ++ map Compiled fs)) /\
     New Compile address pats WatcherImpl = Some externalWatcher) /\
  New Compile address pats WatcherOther = None /\
  (Exists (fun p => Compile p = None) pats -> forall w, New Compile address pats w = None) /\
  (forall name, name <> "path" -> name <> "file" ->
     New Compile address pats (WatcherName name) = None).
Proof.
  split; [|split; [|split]].
  - intros fs Hf. unfold New. rewrite (compile_patterns_ok _ _ _ _ Hf). auto.
  - unfold New. destruct (compile_patterns _ _ _); reflexivity.
  - intros He w. unfold New. rewrite compile_patterns_fail by exact He. reflexivity.
  - intros name H1 H2. unfold New.
    destruct (compile_patterns _ _ _); [|reflexivity].
    repeat match goal with |- context [match ?x with _ => _ end] => is_var x; destruct x end;
      try reflexivity; congruence.
Qed.

(** New then scan: with a non-empty pattern list, a cycle of the path watcher built by [New] panics exactly when the walk reaches a regular file or a path whose [Lstat] fails (nil [info]). *)
Theorem New_patterns_panic_on_first_file Compile address pats pe lastCheck args :
  New Compile address pats (WatcherName "path") = Some (pathScanner address pe) ->
  pats <> [] ->
  (scan_cycle_arg pe lastCheck args = None <->
   Exists (fun a => match a with
                    | WalkInfo c => IsDir (wc_info c) = false
                    | WalkNilInfo _ _ => True
                    end) (walked_arg args)).
Proof.
  intros HN Hne. unfold New in HN.
  destruct (compile_patterns Compile _ pats) as [pe'|] eqn:Hc; [|discriminate].
  simpl in HN. injection HN as <-.
  destruct (compile_patterns_shape _ _ _ _ Hc) as (fs & -> & _).
  assert (Hz : forall file, pattern_matched (repeat ZeroRegexp (length pats) ++ map Compiled fs) file = None).
  { intros file. apply match_loop_zero_prefix. destruct pats; [congruence|simpl; lia]. }
  rewrite scan_cycle_arg_none, Walk_arg_none.
  split; intros H; (eapply Exists_impl; [exact H|]); intros [c|file e]; auto.
  - intros [Hd _]. exact Hd.
Qed.

(** Monitor.Watch (older API) then Monitor.scan: with the patterns compiled by appending, a cycle panics only on a path whose [Lstat] fails (nil [info]); on a walk where every [Lstat] succeeds, the new checkpoint holds exactly the walked regular files matched by some pattern (all of them for an empty list), and every non-Remove notice carries the checkpoint's info for its path. *)
Theorem Watch_patterns_filter Compile pats pe lastCheck calls :
  Watch_patexp Compile pats = Some pe -> NoDup (map wc_file calls) ->
  (forall args, scan_cycle_arg pe lastCheck args = None <->
     Exists (fun a => match a with WalkNilInfo _ _ => True | WalkInfo _ => False end)
       (walked_arg args)) /\
  exists ns cur, scan_cycle_arg pe lastCheck (map WalkInfo calls) = Some (ns, Some cur, walk_err calls) /\
    (forall f i, cur !! f = Some i <->
       exists c, In c (walked calls) /\ wc_file c = f /\ wc_info c = i /\
         IsDir i = false /\
         (pats = [] \/ exists p g, In p pats /\ Compile p = Some g /\ g f = true)) /\
    (forall n, In n ns -> event n <> FileRemove -> cur !! path n = Some (fileinfo n)).
Proof.
  intros Hw Hnd. unfold Watch_patexp in Hw.
  destruct (compile_patterns_shape _ _ _ _ Hw) as (fs & -> & Hf). simpl.
  assert (Hm : forall f, pattern_matched (map Compiled fs) f =
                         Some (existsb (fun g => g f) fs || (length fs =? 0)%nat)).
  { intros f. unfold pattern_matched. rewrite length_map. apply match_loop_compiled. }
  split.
  { intros args. rewrite scan_cycle_arg_none, Walk_arg_none.
    split; intros H; (eapply Exists_impl; [exact H|]); intros [c|file e]; try tauto.
    intros [_ Hc]. rewrite Hm in Hc. discriminate. }
  rewrite scan_cycle_arg_map.
  destruct (scan_cycle (map Compiled fs) lastCheck calls) as [[[ns last'] err]|] eqn:Hsc.
  2:{ exfalso. unfold scan_cycle in Hsc.
      destruct (Walk _ _ _ _) as [[st e]|] eqn:HW; [discriminate|].
      apply Walk_none in HW. apply Exists_exists in HW as (c & _ & _ & Hc).
      rewrite Hm in Hc. discriminate. }
  pose proof Hsc as Hspec. apply scan_cycle_spec in Hspec as (-> & -> & ->); [|assumption].
  eexists _, _. split; [reflexivity|]. split.
  - intros f i. rewrite visited_char by assumption.
    apply exist_proper; intros c. do 4 (apply and_iff_compat_l).
    rewrite Hm. split.
    + intros H. injection H as H. apply orb_true_iff in H as [H|H].
      * right. apply existsb_exists in H as (g & Hg & Hgf).
        destruct (Forall2_In_r _ _ _ _ Hf Hg) as (p & Hp & Hc). eauto.
      * left. apply Nat.eqb_eq in H. apply Forall2_length in Hf.
        destruct pats; [reflexivity|]. simpl in Hf. lia.
    + intros [->|(p & g & Hp & Hc & Hgf)]; f_equal; apply orb_true_iff.
      * right. apply Forall2_length in Hf. simpl in Hf. rewrite <- Hf. reflexivity.
      * left. apply existsb_exists.
        destruct (Forall2_In_l _ _ _ _ Hf Hp) as (g' & Hg' & Hc').
        rewrite Hc in Hc'. injection Hc' as <-. eauto.
  - intros n Hn Hr. apply in_app_or in Hn as [Hn|Hn].
    + apply in_flat_map in Hn as (c & Hc & Hn).
      destruct (diff_item_shape lastCheck (wc_file c) (wc_info c)) as [E|[E|E]];
        rewrite E in Hn; [destruct Hn| |];
        destruct Hn as [<-|[]]; simpl; apply fold_visited_in; auto using NoDup_kept.
    + destruct lastCheck as [lc|]; [|destruct Hn].
      apply removals_event in Hn. contradiction.
Qed.

(** The matching loop of the walk callback: it panics exactly when a zero regexp is reached before any match, and it keeps a file exactly when the list is empty or some compiled pattern matches before any zero regexp. *)
Theorem pattern_matched_spec pattern file :
  (pattern_matched pattern file = None <->
   exists pre post, pattern = pre ++ ZeroRegexp :: post /\
     Forall (fun r => FindStringIndex r file = Some false) pre) /\
  (pattern_matched pattern file = Some true <->
   pattern = [] \/
   exists pre g post, pattern = pre ++ Compiled g :: post /\ g file = true /\
     Forall (fun r => FindStringIndex r file = Some false) pre).
Proof.
  unfold pattern_matched. split; [apply match_loop_none|].
  rewrite match_loop_true. destruct pattern as [|r ps]; simpl.
  - split; [auto|]. intros _. left. auto.
  - split.
    + intros [[H _]|H]; [discriminate|auto].
    + intros [H|H]; [discriminate|auto].
Qed.

(** Event.String: whatever the map iteration order, the result joins with "|" the names of exactly the flags set in [e]; bits above the four flags are ignored; a single flag gives its own name and 0 gives the empty string. *)
Theorem Event_String_flags order e :
  order ≡ₚ map_to_list eventName ->
  (exists names, Event_String order e = String.concat "|" names /\ names ≡ₚ flag_names e) /\
  Event_String order e = Event_String order (N.land e 15%N) /\
  Event_String order FileCreate = "notice.FileCreate" /\
  Event_String order FileUpdate = "notice.FileUpdate" /\
  Event_String order FileRemove = "notice.FileRemove" /\
  Event_String order FileRename = "notice.FileRename" /\
  Event_String order 0%N = EmptyString.
Proof.
  intros Hp. split; [|split; [|split; [|split; [|split; [|split]]]]].
  - eexists; split; [reflexivity|]. apply Event_String_names, Hp.
  - unfold Event_String. f_equal. f_equal. apply filter_ext_in. intros [ev str] Hin.
    simpl. apply (Permutation_in _ (Permutation_trans Hp eventName_list)) in Hin.
    destruct Hin as [Hin|[Hin|[Hin|[Hin|[]]]]]; injection Hin as <- <-;
      rewrite <- N.land_assoc; reflexivity.
  - apply Event_String_single; [exact Hp|reflexivity].
  - apply Event_String_single; [exact Hp|reflexivity].
  - apply Event_String_single; [exact Hp|reflexivity].
  - apply Event_String_single; [exact Hp|reflexivity].
  - pose proof (Event_String_names order 0%N Hp) as Hn. unfold Event_String.
    symmetry in Hn. apply Permutation_nil in Hn. rewrite Hn. reflexivity.
Qed.

(** Scan cycle with a previous checkpoint: no path gets more than one notice in a cycle. *)
Theorem one_notice_per_identity pattern prev calls ns cur err :
  NoDup (map wc_file calls) ->
  scan_cycle pattern (Some prev) calls = Some (ns, Some cur, err) ->
  forall f, (length (for_path f ns) <= 1)%nat.
Proof.
  intros Hnd H f. rewrite (for_path_cycle _ _ _ _ _ _ f Hnd H).
  destruct (cur !! f) as [i|].
  - destruct (diff_item_shape (Some prev) f i) as [E|[E|E]]; rewrite E; simpl; lia.
  - destruct (prev !! f); simpl; lia.
Qed.

(** Scan cycle with a previous checkpoint: replaying the cycle's notices on the old key set (Remove deletes, any other kind adds) gives exactly the new checkpoint's key set. *)
Theorem replay_reconstructs_keys pattern prev calls ns cur err :
  NoDup (map wc_file calls) ->
  scan_cycle pattern (Some prev) calls = Some (ns, Some cur, err) ->
  replay_keys (dom prev) ns ≡ dom cur.
Proof.
  intros Hnd H. apply set_equiv. intros f.
  etrans; [apply replay_elem|]. rewrite (for_path_cycle _ _ _ _ _ _ f Hnd H).
  rewrite (elem_of_dom cur f).
  destruct (cur !! f) as [i|] eqn:Hc; destruct (prev !! f) as [old|] eqn:Hp;
    unfold diff_item, map_index; rewrite ?Hp;
    repeat match goal with |- context [if ?b then _ else _] => destruct b end; simpl;
    rewrite ?(elem_of_dom prev f), ?Hp;
    split; intros Hx; eauto; try discriminate; try (destruct Hx; discriminate);
    exfalso; apply Hx; reflexivity.
Qed.

(** Start: every notice sent on [m.notices] has a kind listed in the [event] arguments. *)
Theorem delivers_only_requested pattern events sleep s :
  reachable pattern events sleep s ->
  forall n, In n (notices_out s) -> In (Type_ n) events.
Proof.
  induction 1 as [|s a s' Hr IH Hs]; [intros n []|].
  intros n Hn. destruct (step_notices_out _ _ _ _ _ _ Hs) as [E|(n0 & rest & _ & E)];
    rewrite E in Hn; [auto|].
  apply in_app_or in Hn as [Hn|Hn]; [auto|].
  apply In_deliver in Hn as [-> Hin]. exact Hin.
Qed.

(** Start with [sleep <= 0]: [time.Tick] gives a nil channel, so no scan is ever started and nothing is buffered or delivered. *)
Theorem no_scan_without_positive_sleep pattern events sleep s :
  reachable pattern events sleep s -> sleep <= 0 ->
  issued s = 0%nat /\ reported s = [] /\ lastCheck s = None /\
  noticeBuffer s = [] /\ notices_out s = [].
Proof.
  intros Hr Hle. induction Hr as [|s a s' Hr IH Hs].
  - simpl. auto.
  - destruct (serial_inv_reachable _ _ _ _ Hr) as (_ & _ & _ & H4).
    destruct IH as (E1 & E2 & E3 & E4 & E5).
    destruct s as [t m ret nc nb bc no ncl w lc sp pn iss rep]; simpl in *.
    subst. unfold outstanding in H4. simpl in H4.
    assert (Hpos : ~ 0 < sleep) by lia.
    destruct t; [|exfalso; apply Hpos, H4; right; right; discriminate..].
    destruct m; [|exfalso; apply Hpos, H4; right; left; reflexivity|];
      (destruct w;
       [| exfalso; apply Hpos, H4; left; reflexivity
        | exfalso; apply Hpos, H4; left; reflexivity |]);
      step_cases Hs; auto.
Qed.

(** Start and Stop: from the select with a pending tick and [Stop] not yet called, receiving [Stop] (which closes [ncc]), then the tick, makes the send [ncc <- noticeBuffer] panic while [Stop] still waits. *)
Theorem stop_tick_race_panics pattern events sleep s calls :
  mpc s = MSelect -> spc s = SNotCalled -> ncc_closed s = false ->
  panicked s = false -> timeTick s <> TNil ->
  exists s1 s2 s3,
    step pattern events sleep s AStop = Some s1 /\
    step pattern events sleep s1 ATick = Some s2 /\
    step pattern events sleep s2 (AHandoff calls) = Some s3 /\
    spc s3 = SWaiting /\ panicked s3 = true.
Proof.
  intros Hm Hsp Hnc Hp Ht.
  destruct s as [t m ret nc nb bc no ncl w lc sp pn iss rep]; simpl in *. subst.
  unfold step at 1. simpl. do 3 eexists. split; [reflexivity|].
  unfold step at 1. simpl. destruct t; [congruence| |]; (split; [reflexivity|]);
    unfold step; simpl; auto.
Qed.

(** Start and Stop: once [Stop] has returned, no goroutine can take another step. *)
Theorem nothing_after_stop pattern events sleep s r :
  reachable pattern events sleep s -> spc s = SReturned r ->
  forall a, step pattern events sleep s a = None.
Proof.
  intros Hr Hs a. destruct (stop_inv_reachable _ _ _ _ Hr r Hs) as (_ & Hm & Hw & _).
  destruct s as [t m ret nc nb bc no ncl w lc sp pn iss rep]; simpl in *. subst.
  unfold step. simpl. destruct pn; [reflexivity|]. destruct a; reflexivity.
Qed.

(** ** Instances of the further properties *)

(** The walk enters the directory [d], whose entry [d/gone] has been
    removed before its [Lstat]. *)
Lemma New_patterns_panic_on_first_file_witness :
  New (fun _ => Some (fun _ => true)) "/var/log" ["x"] (WatcherName "path") =
    Some (pathScanner "/var/log" [ZeroRegexp; Compiled (fun _ => true)]) /\
  ["x"] <> [] /\
  (scan_cycle_arg [ZeroRegexp; Compiled (fun _ => true)] None
     [WalkInfo (mkWalkCall "d" (mkFileInfo true 1 0) None);
      WalkNilInfo "d/gone" "lstat d/gone: no such file or directory"] = None <->
   Exists (fun a => match a with
                    | WalkInfo c => IsDir (wc_info c) = false
                    | WalkNilInfo _ _ => True
                    end)
     (walked_arg [WalkInfo (mkWalkCall "d" (mkFileInfo true 1 0) None);
                  WalkNilInfo "d/gone" "lstat d/gone: no such file or directory"])).
Proof.
  split; [reflexivity|]. split; [discriminate|].
  apply (New_patterns_panic_on_first_file (fun _ => Some (fun _ => true)) "/var/log"
           ["x"] [ZeroRegexp; Compiled (fun _ => true)] None
           [WalkInfo (mkWalkCall "d" (mkFileInfo true 1 0) None);
            WalkNilInfo "d/gone" "lstat d/gone: no such file or directory"]);
    [reflexivity|discriminate].
Defined.

(** The pattern ["a"] compiled to an exact-name matcher keeps [a] and drops [b]. *)
Lemma Watch_patterns_filter_witness :
  Watch_patexp (fun p => Some (fun f => String.eqb f p)) ["a"] =
    Some [Compiled (fun f => String.eqb f "a")] /\
  NoDup (map wc_file [mkWalkCall "a" (mkFileInfo false 1 10) None;
                      mkWalkCall "b" (mkFileInfo false 1 10) None]) /\
  (forall args, scan_cycle_arg [Compiled (fun f => String.eqb f "a")] None args = None <->
     Exists (fun a => match a with WalkNilInfo _ _ => True | WalkInfo _ => False end)
       (walked_arg args)) /\
  exists ns cur,
    scan_cycle_arg [Compiled (fun f => String.eqb f "a")] None
      (map WalkInfo [mkWalkCall "a" (mkFileInfo false 1 10) None;
                     mkWalkCall "b" (mkFileInfo false 1 10) None]) =
      Some (ns, Some cur, walk_err [mkWalkCall "a" (mkFileInfo false 1 10) None;
                                    mkWalkCall "b" (mkFileInfo false 1 10) None]) /\
    (forall f i, cur !! f = Some i <->
       exists c, In c (walked [mkWalkCall "a" (mkFileInfo false 1 10) None;
                               mkWalkCall "b" (mkFileInfo false 1 10) None]) /\
         wc_file c = f /\ wc_info c = i /\ IsDir i = false /\
         (["a"] = [] \/ exists p g, In p ["a"] /\
            (fun p => Some (fun f => String.eqb f p)) p = Some g /\ g f = true)) /\
    (forall n, In n ns -> event n <> FileRemove -> cur !! path n = Some (fileinfo n)).
Proof.
  split; [reflexivity|].
  split; [apply (bool_decide_unpack _); vm_compute; reflexivity|].
  apply (Watch_patterns_filter (fun p => Some (fun f => String.eqb f p)) ["a"]
           [Compiled (fun f => String.eqb f "a")] None
           [mkWalkCall "a" (mkFileInfo false 1 10) None;
            mkWalkCall "b" (mkFileInfo false 1 10) None]).
  - reflexivity.
  - apply (bool_decide_unpack _); vm_compute; reflexivity.
Defined.

(** [Create|Remove], in the iteration order of the map literal. *)
Lemma Event_String_flags_witness :
  map_to_list eventName ≡ₚ map_to_list eventName /\
  (exists names, Event_String (map_to_list eventName) 5%N = String.concat "|" names /\
     names ≡ₚ flag_names 5%N) /\
  Event_String (map_to_list eventName) 5%N =
    Event_String (map_to_list eventName) (N.land 5%N 15%N) /\
  Event_String (map_to_list eventName) FileCreate = "notice.FileCreate" /\
  Event_String (map_to_list eventName) FileUpdate = "notice.FileUpdate" /\
  Event_String (map_to_list eventName) FileRemove = "notice.FileRemove" /\
  Event_String (map_to_list eventName) FileRename = "notice.FileRename" /\
  Event_String (map_to_list eventName) 0%N = EmptyString.
Proof.
  split; [reflexivity|].
  apply (Event_String_flags (map_to_list eventName) 5%N). reflexivity.
Defined.

(** A cycle that updates [a] and removes [b]. *)
Lemma one_notice_per_identity_witness :
  NoDup (map wc_file [mkWalkCall "a" (mkFileInfo false 2 10) None]) /\
  scan_cycle [] (Some {["a" := mkFileInfo false 1 10; "b" := mkFileInfo false 1 10]})
    [mkWalkCall "a" (mkFileInfo false 2 10) None] =
    Some ([mkNotice "a" FileUpdate (mkFileInfo false 2 10);
           mkNotice "b" FileRemove (mkFileInfo false 1 10)],
          Some {["a" := mkFileInfo false 2 10]}, None) /\
  forall f, (length (for_path f [mkNotice "a" FileUpdate (mkFileInfo false 2 10);
                                 mkNotice "b" FileRemove (mkFileInfo false 1 10)]) <= 1)%nat.
Proof.
  split; [apply (bool_decide_unpack _); vm_compute; reflexivity|].
  split; [vm_compute; reflexivity|].
  apply (one_notice_per_identity []
           {["a" := mkFileInfo false 1 10; "b" := mkFileInfo false 1 10]}
           [mkWalkCall "a" (mkFileInfo false 2 10) None]
           [mkNotice "a" FileUpdate (mkFileInfo false 2 10);
            mkNotice "b" FileRemove (mkFileInfo false 1 10)]
           {["a" := mkFileInfo false 2 10]} None).
  - apply (bool_decide_unpack _); vm_compute; reflexivity.
  - vm_compute; reflexivity.
Defined.

Lemma replay_reconstructs_keys_witness :
  NoDup (map wc_file [mkWalkCall "a" (mkFileInfo false 2 10) None]) /\
  scan_cycle [] (Some {["a" := mkFileInfo false 1 10; "b" := mkFileInfo false 1 10]})
    [mkWalkCall "a" (mkFileInfo false 2 10) None] =
    Some ([mkNotice "a" FileUpdate (mkFileInfo false 2 10);
           mkNotice "b" FileRemove (mkFileInfo false 1 10)],
          Some {["a" := mkFileInfo false 2 10]}, None) /\
  replay_keys (dom ({["a" := mkFileInfo false 1 10; "b" := mkFileInfo false 1 10]} : snapshot))
    [mkNotice "a" FileUpdate (mkFileInfo false 2 10);
     mkNotice "b" FileRemove (mkFileInfo false 1 10)] ≡
  dom ({["a" := mkFileInfo false 2 10]} : snapshot).
Proof.
  split; [apply (bool_decide_unpack _); vm_compute; reflexivity|].
  split; [vm_compute; reflexivity|].
  apply (replay_reconstructs_keys []
           {["a" := mkFileInfo false 1 10; "b" := mkFileInfo false 1 10]}
           [mkWalkCall "a" (mkFileInfo false 2 10) None]
           [mkNotice "a" FileUpdate (mkFileInfo false 2 10);
            mkNotice "b" FileRemove (mkFileInfo false 1 10)]
           {["a" := mkFileInfo false 2 10]} None).
  - apply (bool_decide_unpack _); vm_compute; reflexivity.
  - vm_compute; reflexivity.
Defined.

Lemma delivers_only_requested_witness :
  reachable [] [FileUpdate] 1 demo_update_delivered /\
  forall n, In n (notices_out demo_update_delivered) -> In (Type_ n) [FileUpdate].
Proof.
  assert (Hr : reachable [] [FileUpdate] 1 demo_update_delivered).
  { apply (run_reachable [] [FileUpdate] 1 (demo_update_actions ++ [ADrain]) (init 1));
      [apply reach_init | vm_compute; reflexivity]. }
  split; [exact Hr|].
  exact (delivers_only_requested [] [FileUpdate] 1 demo_update_delivered Hr).
Defined.

(** With [sleep = 0], after [Stop] has been received. *)
Lemma no_scan_without_positive_sleep_witness :
  reachable [] [FileCreate] 0
    (mkSys TNil MSelect true true [] false [] false WIdle None SWaiting false 0 []) /\
  0 <= 0 /\
  issued (mkSys TNil MSelect true true [] false [] false WIdle None SWaiting false 0 []) = 0%nat /\
  reported (mkSys TNil MSelect true true [] false [] false WIdle None SWaiting false 0 []) = [] /\
  lastCheck (mkSys TNil MSelect true true [] false [] false WIdle None SWaiting false 0 []) = None /\
  noticeBuffer (mkSys TNil MSelect true true [] false [] false WIdle None SWaiting false 0 []) = [] /\
  notices_out (mkSys TNil MSelect true true [] false [] false WIdle None SWaiting false 0 []) = [].
Proof.
  assert (Hr : reachable [] [FileCreate] 0
    (mkSys TNil MSelect true true [] false [] false WIdle None SWaiting false 0 [])).
  { apply (run_reachable [] [FileCreate] 0 [AStop] (init 0));
      [apply reach_init | vm_compute; reflexivity]. }
  split; [exact Hr|]. split; [lia|].
  apply (no_scan_without_positive_sleep [] [FileCreate] 0 _ Hr). lia.
Defined.

Lemma stop_tick_race_panics_witness :
  mpc (init 1) = MSelect /\ spc (init 1) = SNotCalled /\ ncc_closed (init 1) = false /\
  panicked (init 1) = false /\ timeTick (init 1) <> TNil /\
  exists s1 s2 s3,
    step [] [FileCreate] 1 (init 1) AStop = Some s1 /\
    step [] [FileCreate] 1 s1 ATick = Some s2 /\
    step [] [FileCreate] 1 s2 (AHandoff []) = Some s3 /\
    spc s3 = SWaiting /\ panicked s3 = true.
Proof.
  do 4 (split; [reflexivity|]). split; [vm_compute; discriminate|].
  apply (stop_tick_race_panics [] [FileCreate] 1 (init 1) []);
    [reflexivity..|vm_compute; discriminate].
Defined.

Lemma nothing_after_stop_witness :
  reachable [] [FileCreate] 1 demo_stop_final /\
  spc demo_stop_final = SReturned None /\
  forall a, step [] [FileCreate] 1 demo_stop_final a = None.
Proof.
  assert (Hr : reachable [] [FileCreate] 1 demo_stop_final).
  { apply (run_reachable [] [FileCreate] 1 demo_stop_actions (init 1));
      [apply reach_init | vm_compute; reflexivity]. }
  split; [exact Hr|]. split; [reflexivity|].
  exact (nothing_after_stop [] [FileCreate] 1 demo_stop_final None Hr eq_refl).
Defined.

(** Only [a] matches: the unmatched file [b] and the directory [d] are
    walked, and the snapshot of [a] is unchanged. *)
Lemma unchanged_tree_no_notices_witness :
  NoDup (map wc_file [mkWalkCall "a" (mkFileInfo false 1 10) None;
                      mkWalkCall "b" (mkFileInfo false 3 5) None;
                      mkWalkCall "d" (mkFileInfo true 4 0) None]) /\
  scan_cycle [Compiled (fun f => String.eqb f "a")] (Some {["a" := mkFileInfo false 1 10]})
    [mkWalkCall "a" (mkFileInfo false 1 10) None;
     mkWalkCall "b" (mkFileInfo false 3 5) None;
     mkWalkCall "d" (mkFileInfo true 4 0) None] =
    Some ([], Some {["a" := mkFileInfo false 1 10]}, None) /\
  @nil Notice = @nil Notice.
Proof.
  split; [apply (bool_decide_unpack _); vm_compute; reflexivity|].
  split; [vm_compute; reflexivity|].
  apply (unchanged_tree_no_notices [Compiled (fun f => String.eqb f "a")]
           {["a" := mkFileInfo false 1 10]}
           [mkWalkCall "a" (mkFileInfo false 1 10) None;
            mkWalkCall "b" (mkFileInfo false 3 5) None;
            mkWalkCall "d" (mkFileInfo true 4 0) None] [] None).
  - apply (bool_decide_unpack _); vm_compute; reflexivity.
  - vm_compute; reflexivity.
Defined.
